(** * Speech acquisition hook (src/hooks/useSpeechRecognition.ts)

    A shallow embedding of the [useSpeechRecognition] React hook and of the
    pure helpers it contains, followed by the properties of the
    specification that concern them.

    Conventions of the embedding:
    - JavaScript strings are [string]s; a character stands for one code unit.
    - React state setters ([setIsRecording], ...) are assignments to fields of
      the state record; [useRef] cells are fields holding [option] handles.
    - Browser objects (media streams, sockets, recorders, timers) live in an
      explicit store inside the state and are referred to by index, so that a
      handle kept in a closure and a handle kept in a ref alias one object.
    - Every callback of the hook runs to completion (one scheduling turn);
      one [event] of the machine is one such turn. *)

From Stdlib Require Import ZArith QArith Qround Ascii String.
From stdpp Require Import gmap strings list fin_maps pretty.

Local Open Scope string_scope.

(** ** JavaScript strings *)

Module Js.

(** ECMAScript WhiteSpace and LineTerminator code units below 256:
    TAB, LF, VT, FF, CR, SPACE, NBSP. [String.prototype.trim] removes
    exactly these from both ends. *)
Definition isWhiteSpace (c : ascii) : bool :=
  let n := nat_of_ascii c in
  orb (andb (9 <=? n)%nat (n <=? 13)%nat)
      (orb (n =? 32)%nat (n =? 160)%nat).

Fixpoint trimStart (s : string) : string :=
  match s with
  | String c s' => if isWhiteSpace c then trimStart s' else s
  | EmptyString => EmptyString
  end.

(** [trimEnd s] drops the trailing white space: a character is kept when
    something non-blank remains at or after it. *)
Fixpoint trimEnd (s : string) : string :=
  match s with
  | String c s' =>
      match trimEnd s' with
      | EmptyString => if isWhiteSpace c then EmptyString else String c EmptyString
      | t => String c t
      end
  | EmptyString => EmptyString
  end.

Definition trim (s : string) : string := trimEnd (trimStart s).

(** ToBoolean on a string: the empty string is the only falsy one. *)
Definition truthy (s : string) : bool :=
  match s with EmptyString => false | _ => true end.

(** A text that is empty or made of white space only. *)
Fixpoint blank (s : string) : bool :=
  match s with
  | String c s' => andb (isWhiteSpace c) (blank s')
  | EmptyString => true
  end.

End Js.

(** ** Language codes: [getDeepgramLanguage] *)

Module Lang.

(** The object literal [languageMap]: its own properties. *)
Definition languageMap : gmap string string :=
  <["en" := "en-US"]> (<["es" := "es"]> (<["fr" := "fr"]> (<["de" := "de"]>
  (<["zh" := "zh-CN"]> (<["hi" := "hi"]> (<["ar" := "ar"]> (<["pt" := "pt-BR"]>
  (<["ru" := "ru"]> (<["ja" := "ja"]> (<["ko" := "ko"]> (<["vi" := "vi"]> ∅))))))))))).

(** An object literal inherits from [Object.prototype]; a property read
    [o[k]] that misses the own properties finds these members. *)
Definition objectPrototype : list string :=
  [ "constructor"; "hasOwnProperty"; "isPrototypeOf"; "propertyIsEnumerable";
    "toLocaleString"; "toString"; "valueOf"; "__proto__";
    "__defineGetter__"; "__defineSetter__"; "__lookupGetter__"; "__lookupSetter__" ].

(** What a property read or the function can yield. *)
Inductive value :=
| Str (s : string)          (* a string *)
| Builtin (name : string)   (* the member [name] of Object.prototype, an object *)
| Undefined.

(** [languageMap[lang]]: own property first, then the prototype. *)
Definition get (lang : string) : value :=
  match languageMap !! lang with
  | Some v => Str v
  | None => if bool_decide (lang ∈ objectPrototype) then Builtin lang else Undefined
  end.

(** ToBoolean: objects are truthy, [undefined] is falsy. *)
Definition truthy (v : value) : bool :=
  match v with
  | Str s => Js.truthy s
  | Builtin _ => true
  | Undefined => false
  end.

(** [return languageMap[lang] || 'en-US'] *)
Definition getDeepgramLanguage (lang : string) : value :=
  let v := get lang in
  if truthy v then v else Str "en-US".

End Lang.

(** ** Streaming transcoder: 32-bit float samples to 16-bit PCM *)

Module Pcm.

(** An element of the [Float32Array] handed to [onaudioprocess]. A finite
    float is a dyadic rational and is carried by its exact value; the
    product with 32768 (a power of two) is exact in the binary64
    arithmetic of the source, so no rounding is lost by the model. *)
Inductive float :=
| NaN
| Inf (negative : bool)
| Fin (q : Q).

(** [x * 32768] *)
Definition times32768 (x : float) : float :=
  match x with
  | Fin q => Fin (q * 32768)
  | other => other
  end.

Definition leb (a b : float) : bool :=
  match a, b with
  | Inf true, _ => true
  | _, Inf false => true
  | Fin p, Fin q => Qle_bool p q
  | _, _ => false
  end.

(** [Math.min(a, b)] and [Math.max(a, b)]: NaN if either argument is. *)
Definition min (a b : float) : float :=
  match a, b with
  | NaN, _ | _, NaN => NaN
  | _, _ => if leb a b then a else b
  end.

Definition max (a b : float) : float :=
  match a, b with
  | NaN, _ | _, NaN => NaN
  | _, _ => if leb a b then b else a
  end.

(** Truncation toward zero, the integer part taken by ToInt16. *)
Definition truncate (q : Q) : Z :=
  if Qle_bool 0 q then Qfloor q else Qceiling q.

(** Reduction modulo 2^16 into the signed range. *)
Definition wrap16 (z : Z) : Z := ((z + 32768) mod 65536 - 32768)%Z.

(** Storing a number into an [Int16Array] cell (ToInt16). *)
Definition toInt16 (x : float) : Z :=
  match x with
  | Fin q => wrap16 (truncate q)
  | _ => 0%Z
  end.

(** [Math.max(-32768, Math.min(32767, inputData[i] * 32768))] stored in
    [pcmData[i]]. *)
Definition sample (x : float) : Z :=
  toInt16 (max (Fin (-32768)) (min (Fin 32767) (times32768 x))).

(** The loop over the block: [pcmData] has [inputData.length] cells. *)
Definition convert (inputData : list float) : list Z := map sample inputData.

(** A sample in the nominal range [-1, 1]. *)
Definition nominal (x : float) : Prop :=
  match x with
  | Fin q => (-1 <= q /\ q <= 1)%Q
  | _ => False
  end.

Definition int16 (z : Z) : Prop := (-32768 <= z <= 32767)%Z.

End Pcm.

(** ** Callbacks of the caller *)

Inductive callback :=
| OnTranscript (text : string) (isFinal : bool)
| OnError (error : string).

(** ** Streaming provider: [socket.onmessage] *)

Module Deepgram.

(** The object obtained by [JSON.parse(event.data)], as far as the handler
    reads it: [type], [channel.alternatives[0].transcript] (absent when
    any link of the optional chain is missing) and [is_final]. *)
Record data := {
  type : option string;
  transcript : option string;
  is_final : option bool;
}.

(** [onmessage]; [None] is a payload on which [JSON.parse] throws, which
    the handler catches and logs. *)
Definition onmessage (parsed : option data) : list callback :=
  match parsed with
  | None => []
  | Some d =>
      if bool_decide (type d = Some "SpeechStarted") then []
      else if bool_decide (type d = Some "UtteranceEnd") then []
      else match transcript d with
           | Some t =>
               if Js.truthy t then
                 let isFinal := default false (is_final d) in
                 if Js.truthy (Js.trim t) then [OnTranscript t isFinal] else []
               else []
           | None => []
           end
  end.

End Deepgram.

(** ** Local provider: [recognition.onresult] and [recognition.onerror] *)

Module WebSpeechApi.

(** One entry of [event.results]: [results[i][0].transcript] and
    [results[i].isFinal]. *)
Record result := { transcript : string; isFinal : bool }.

Record resultEvent := { resultIndex : nat; results : list result }.

(** The body of the [for] loop, on the pair (interim, final). *)
Definition accumulate (acc : string * string) (r : result) : string * string :=
  let '(interim, final) := acc in
  if isFinal r then (interim, final +:+ transcript r)
  else (interim +:+ transcript r, final).

Definition onresult (event : resultEvent) : list callback :=
  let '(interim, final) :=
    fold_left accumulate (drop (resultIndex event) (results event)) ("", "") in
  (if Js.truthy interim then [OnTranscript interim false] else [])
  ++ (if Js.truthy final then [OnTranscript final true] else []).

Definition onerror (error : string) : list callback :=
  if bool_decide (error ≠ "no-speech") && bool_decide (error ≠ "aborted")
  then [OnError ("Speech error: " +:+ error)]
  else [].

End WebSpeechApi.

(** ** Batch chunker: the accumulator and the three-second flush *)

Module Chunker.

(** A [Blob], by its size in bytes. *)
Record blob := { size : N }.

(** [new Blob(parts)]: the clip is the concatenation of the parts. *)
Definition blobSize (parts : list blob) : N :=
  fold_right (fun b n => (size b + n)%N) 0%N parts.

(** [mediaRecorder.ondataavailable] *)
Definition ondataavailable (audioChunks : list blob) (b : blob) : list blob :=
  if (0 <? size b)%N then audioChunks ++ [b] else audioChunks.

(** The synchronous head of the interval callback: the clip that is
    posted to the batch route, if any. *)
Definition flush (audioChunks : list blob) : option (list blob) :=
  if (0 <? length audioChunks)%nat then
    let audioBlob := audioChunks in
    if (10000 <? blobSize audioBlob)%N then Some audioBlob else None
  else None.

(** The outcome of [fetch('/api/speech/assemblyai', ...)]. *)
Inductive body :=
| NotJson                               (* [response.json()] rejects *)
| Json (transcript : option string).    (* the [transcript] member, if any *)

Inductive reply :=
| NetworkError                          (* [fetch] rejects *)
| Response (ok : bool) (b : body).

(** The rest of the interval callback, after [await fetch]: the new
    accumulator and the callbacks made. *)
Definition onreply (audioChunks : list blob) (r : reply) : list blob * list callback :=
  match r with
  | Response true (Json (Some t)) =>
      if Js.truthy t then ([], [OnTranscript t true]) else (audioChunks, [])
  | _ => (audioChunks, [])
  end.

(** The request went through: the route answered with a 2xx status. *)
Definition succeeded (r : reply) : bool :=
  match r with
  | Response true _ => true
  | _ => false
  end.

End Chunker.

(** ** The batch route (src/app/api/speech/assemblyai/route.ts) *)

Module Route.

(** The outcome of [client.transcripts.transcribe(...)]. *)
Inductive transcription :=
| TranscribeThrows                      (* the call rejects *)
| TranscribeError                       (* [transcript.status === 'error'] *)
| TranscribeText (text : option string).

(** [POST(request)], by what the client reads of the answer: the status
    class and the [transcript] member of the body. [apiKey] is
    [process.env.ASSEMBLYAI_API_KEY]. *)
Definition POST (apiKey : option string) (audioFile : option Chunker.blob)
    (t : transcription) : Chunker.reply :=
  if negb (Js.truthy (default "" apiKey)) then
    Chunker.Response false (Chunker.Json None)          (* status 500 *)
  else
    match audioFile with
    | None => Chunker.Response false (Chunker.Json None) (* status 400 *)
    | Some _ =>
        match t with
        | TranscribeThrows | TranscribeError =>
            Chunker.Response false (Chunker.Json None)   (* status 500 *)
        | TranscribeText text =>
            Chunker.Response true (Chunker.Json (Some (default "" text)))
        end
    end.

End Route.

(** ** The hook: [startRecording], the provider chain and [stopRecording] *)

Module Session.

Inductive providerName := deepgram | assemblyai | webspeech.

(** [WebSocket.readyState] *)
Inductive readyState := CONNECTING | OPEN | CLOSED.

(** A socket made by [startDeepgram], with the deadline of the
    [setTimeout(..., 5000)] armed next to it while that timer is live. *)
Record socket := { state : readyState; timeout : option N }.

(** A [MediaRecorder] made by [startAssemblyAI], with the next deadline of
    its [setInterval(..., 3000)] while that timer is live. *)
Record recorder := { recording : bool; transcribeInterval : option N }.

(** A request posted to the batch route by the interval callback. *)
Record request := { clip : list Chunker.blob; pending : bool }.

(** Where the one [startRecording] call in flight is suspended. The local
    variable [stream] of that call is kept with it. *)
Inductive run :=
| NotRunning
| AwaitMicrophone                          (* await getUserMedia(...) *)
| AwaitConfig (stream : nat)               (* await fetch('/api/speech/deepgram') *)
| AwaitHandshake (stream sock : nat).      (* await new Promise(...) *)

(** A callback made to the caller, with [isRecording] as it stood. *)
Record call := { what : callback; isRecordingThen : bool }.

Record hook := {
  (* useState *)
  isRecording : bool;
  isConnecting : bool;
  provider : option providerName;
  (* useRef *)
  mediaRecorderRef : option nat;
  audioChunksRef : list Chunker.blob;
  socketRef : option nat;
  streamRef : option nat;
  (* the startRecording call in flight *)
  running : run;
  (* the browser *)
  now : N;                          (* milliseconds *)
  streams : list bool;              (* per MediaStream: are its tracks live *)
  sockets : list socket;
  recorders : list recorder;
  recognitions : nat;               (* SpeechRecognition objects started *)
  requests : list request;
  (* history *)
  attempts : list providerName;     (* providers whose start function ran *)
  trackStops : nat;                 (* executions of getTracks().forEach(stop) *)
  calls : list call;
}.

Definition initial : hook :=
  {| isRecording := false; isConnecting := false; provider := None;
     mediaRecorderRef := None; audioChunksRef := []; socketRef := None;
     streamRef := None; running := NotRunning; now := 0%N; streams := [];
     sockets := []; recorders := []; recognitions := 0; requests := [];
     attempts := []; trackStops := 0; calls := [] |}.

(** Field updates. *)
Definition setIsRecording (v : bool) (h : hook) : hook :=
  {| isRecording := v; isConnecting := isConnecting h; provider := provider h;
     mediaRecorderRef := mediaRecorderRef h; audioChunksRef := audioChunksRef h;
     socketRef := socketRef h; streamRef := streamRef h; running := running h;
     now := now h; streams := streams h; sockets := sockets h;
     recorders := recorders h; recognitions := recognitions h;
     requests := requests h; attempts := attempts h;
     trackStops := trackStops h; calls := calls h |}.

Definition setIsConnecting (v : bool) (h : hook) : hook :=
  {| isRecording := isRecording h; isConnecting := v; provider := provider h;
     mediaRecorderRef := mediaRecorderRef h; audioChunksRef := audioChunksRef h;
     socketRef := socketRef h; streamRef := streamRef h; running := running h;
     now := now h; streams := streams h; sockets := sockets h;
     recorders := recorders h; recognitions := recognitions h;
     requests := requests h; attempts := attempts h;
     trackStops := trackStops h; calls := calls h |}.

Definition setProvider (v : option providerName) (h : hook) : hook :=
  {| isRecording := isRecording h; isConnecting := isConnecting h; provider := v;
     mediaRecorderRef := mediaRecorderRef h; audioChunksRef := audioChunksRef h;
     socketRef := socketRef h; streamRef := streamRef h; running := running h;
     now := now h; streams := streams h; sockets := sockets h;
     recorders := recorders h; recognitions := recognitions h;
     requests := requests h; attempts := attempts h;
     trackStops := trackStops h; calls := calls h |}.

Definition setMediaRecorderRef (v : option nat) (h : hook) : hook :=
  {| isRecording := isRecording h; isConnecting := isConnecting h; provider := provider h;
     mediaRecorderRef := v; audioChunksRef := audioChunksRef h;
     socketRef := socketRef h; streamRef := streamRef h; running := running h;
     now := now h; streams := streams h; sockets := sockets h;
     recorders := recorders h; recognitions := recognitions h;
     requests := requests h; attempts := attempts h;
     trackStops := trackStops h; calls := calls h |}.

Definition setAudioChunksRef (v : list Chunker.blob) (h : hook) : hook :=
  {| isRecording := isRecording h; isConnecting := isConnecting h; provider := provider h;
     mediaRecorderRef := mediaRecorderRef h; audioChunksRef := v;
     socketRef := socketRef h; streamRef := streamRef h; running := running h;
     now := now h; streams := streams h; sockets := sockets h;
     recorders := recorders h; recognitions := recognitions h;
     requests := requests h; attempts := attempts h;
     trackStops := trackStops h; calls := calls h |}.

Definition setSocketRef (v : option nat) (h : hook) : hook :=
  {| isRecording := isRecording h; isConnecting := isConnecting h; provider := provider h;
     mediaRecorderRef := mediaRecorderRef h; audioChunksRef := audioChunksRef h;
     socketRef := v; streamRef := streamRef h; running := running h;
     now := now h; streams := streams h; sockets := sockets h;
     recorders := recorders h; recognitions := recognitions h;
     requests := requests h; attempts := attempts h;
     trackStops := trackStops h; calls := calls h |}.

Definition setStreamRef (v : option nat) (h : hook) : hook :=
  {| isRecording := isRecording h; isConnecting := isConnecting h; provider := provider h;
     mediaRecorderRef := mediaRecorderRef h; audioChunksRef := audioChunksRef h;
     socketRef := socketRef h; streamRef := v; running := running h;
     now := now h; streams := streams h; sockets := sockets h;
     recorders := recorders h; recognitions := recognitions h;
     requests := requests h; attempts := attempts h;
     trackStops := trackStops h; calls := calls h |}.

Definition setRunning (v : run) (h : hook) : hook :=
  {| isRecording := isRecording h; isConnecting := isConnecting h; provider := provider h;
     mediaRecorderRef := mediaRecorderRef h; audioChunksRef := audioChunksRef h;
     socketRef := socketRef h; streamRef := streamRef h; running := v;
     now := now h; streams := streams h; sockets := sockets h;
     recorders := recorders h; recognitions := recognitions h;
     requests := requests h; attempts := attempts h;
     trackStops := trackStops h; calls := calls h |}.

Definition setNow (v : N) (h : hook) : hook :=
  {| isRecording := isRecording h; isConnecting := isConnecting h; provider := provider h;
     mediaRecorderRef := mediaRecorderRef h; audioChunksRef := audioChunksRef h;
     socketRef := socketRef h; streamRef := streamRef h; running := running h;
     now := v; streams := streams h; sockets := sockets h;
     recorders := recorders h; recognitions := recognitions h;
     requests := requests h; attempts := attempts h;
     trackStops := trackStops h; calls := calls h |}.

Definition setStreams (v : list bool) (h : hook) : hook :=
  {| isRecording := isRecording h; isConnecting := isConnecting h; provider := provider h;
     mediaRecorderRef := mediaRecorderRef h; audioChunksRef := audioChunksRef h;
     socketRef := socketRef h; streamRef := streamRef h; running := running h;
     now := now h; streams := v; sockets := sockets h;
     recorders := recorders h; recognitions := recognitions h;
     requests := requests h; attempts := attempts h;
     trackStops := trackStops h; calls := calls h |}.

Definition setSockets (v : list socket) (h : hook) : hook :=
  {| isRecording := isRecording h; isConnecting := isConnecting h; provider := provider h;
     mediaRecorderRef := mediaRecorderRef h; audioChunksRef := audioChunksRef h;
     socketRef := socketRef h; streamRef := streamRef h; running := running h;
     now := now h; streams := streams h; sockets := v;
     recorders := recorders h; recognitions := recognitions h;
     requests := requests h; attempts := attempts h;
     trackStops := trackStops h; calls := calls h |}.

Definition setRecorders (v : list recorder) (h : hook) : hook :=
  {| isRecording := isRecording h; isConnecting := isConnecting h; provider := provider h;
     mediaRecorderRef := mediaRecorderRef h; audioChunksRef := audioChunksRef h;
     socketRef := socketRef h; streamRef := streamRef h; running := running h;
     now := now h; streams := streams h; sockets := sockets h;
     recorders := v; recognitions := recognitions h;
     requests := requests h; attempts := attempts h;
     trackStops := trackStops h; calls := calls h |}.

Definition setRecognitions (v : nat) (h : hook) : hook :=
  {| isRecording := isRecording h; isConnecting := isConnecting h; provider := provider h;
     mediaRecorderRef := mediaRecorderRef h; audioChunksRef := audioChunksRef h;
     socketRef := socketRef h; streamRef := streamRef h; running := running h;
     now := now h; streams := streams h; sockets := sockets h;
     recorders := recorders h; recognitions := v;
     requests := requests h; attempts := attempts h;
     trackStops := trackStops h; calls := calls h |}.

Definition setRequests (v : list request) (h : hook) : hook :=
  {| isRecording := isRecording h; isConnecting := isConnecting h; provider := provider h;
     mediaRecorderRef := mediaRecorderRef h; audioChunksRef := audioChunksRef h;
     socketRef := socketRef h; streamRef := streamRef h; running := running h;
     now := now h; streams := streams h; sockets := sockets h;
     recorders := recorders h; recognitions := recognitions h;
     requests := v; attempts := attempts h;
     trackStops := trackStops h; calls := calls h |}.

Definition setAttempts (v : list providerName) (h : hook) : hook :=
  {| isRecording := isRecording h; isConnecting := isConnecting h; provider := provider h;
     mediaRecorderRef := mediaRecorderRef h; audioChunksRef := audioChunksRef h;
     socketRef := socketRef h; streamRef := streamRef h; running := running h;
     now := now h; streams := streams h; sockets := sockets h;
     recorders := recorders h; recognitions := recognitions h;
     requests := requests h; attempts := v;
     trackStops := trackStops h; calls := calls h |}.

Definition setTrackStops (v : nat) (h : hook) : hook :=
  {| isRecording := isRecording h; isConnecting := isConnecting h; provider := provider h;
     mediaRecorderRef := mediaRecorderRef h; audioChunksRef := audioChunksRef h;
     socketRef := socketRef h; streamRef := streamRef h; running := running h;
     now := now h; streams := streams h; sockets := sockets h;
     recorders := recorders h; recognitions := recognitions h;
     requests := requests h; attempts := attempts h;
     trackStops := v; calls := calls h |}.

Definition setCalls (v : list call) (h : hook) : hook :=
  {| isRecording := isRecording h; isConnecting := isConnecting h; provider := provider h;
     mediaRecorderRef := mediaRecorderRef h; audioChunksRef := audioChunksRef h;
     socketRef := socketRef h; streamRef := streamRef h; running := running h;
     now := now h; streams := streams h; sockets := sockets h;
     recorders := recorders h; recognitions := recognitions h;
     requests := requests h; attempts := attempts h;
     trackStops := trackStops h; calls := v |}.

(** The two messages [startRecording] passes to [onError]. *)
Definition denied : string := "Microphone access denied".
Definition exhausted : string :=
  "All speech recognition services unavailable. Please use text input.".

(** What the runtime offers to the two fallback providers. *)
Inductive recorderSupport :=
| RecorderConstructorThrows   (* [new MediaRecorder(...)] throws *)
| RecorderStartThrows         (* [mediaRecorder.start(1000)] throws *)
| RecorderWorks.

Inductive recognitionSupport :=
| RecognitionAbsent           (* no [window.SpeechRecognition] at all *)
| RecognitionThrows           (* the constructor or [start()] throws *)
| RecognitionWorks.

Record runtime := {
  mediaRecorder : recorderSupport;
  speechRecognition : recognitionSupport;
}.

(** The answer of the configuration endpoint, as [startDeepgram] reads it. *)
Inductive config :=
| ConfigThrows      (* fetch, json() or the WebSocket constructor throws *)
| ConfigNotOk       (* [!configResponse.ok] *)
| ConfigNoKey       (* [!apiKey] *)
| ConfigReady.      (* a socket is created *)

(** One scheduling turn. *)
Inductive event :=
| StartRecording                              (* the caller *)
| StopRecording                               (* the caller *)
| MicrophoneGranted                           (* getUserMedia resolves *)
| MicrophoneDenied                            (* getUserMedia rejects *)
| ConfigArrives (c : config)
| SocketOpen (k : nat)                        (* socket.onopen *)
| SocketError (k : nat)                       (* socket.onerror *)
| SocketClose (k : nat)                       (* socket.onclose, peer or network *)
| SocketMessage (k : nat) (m : option Deepgram.data)
| Timeout (k : nat)                           (* the 5000 ms timer of socket k *)
| DataAvailable (r : nat) (b : Chunker.blob)  (* mediaRecorder.ondataavailable *)
| Tick (r : nat)                              (* the 3000 ms interval of recorder r *)
| Reply (q : nat) (a : Chunker.reply)         (* fetch of request q settles *)
| RecognitionResult (e : WebSpeechApi.resultEvent)
| RecognitionError (error : string)
| Elapse (ms : N).                            (* time passes, no callback runs *)

Definition emit (cbs : list callback) (h : hook) : hook :=
  setCalls
    (calls h ++ map (fun c => {| what := c; isRecordingThen := isRecording h |}) cbs) h.

Definition attempt (p : providerName) (h : hook) : hook :=
  setAttempts (attempts h ++ [p]) h.

(** [stream.getTracks().forEach(track => track.stop())] *)
Definition stopTracks (stream : nat) (h : hook) : hook :=
  setTrackStops (S (trackStops h)) (setStreams (<[stream := false]> (streams h)) h).

(** [startAssemblyAI(stream)] *)
Definition startAssemblyAI (rt : runtime) (h : hook) : bool * hook :=
  match mediaRecorder rt with
  | RecorderConstructorThrows => (false, h)
  | support =>
      let r := length (recorders h) in
      let started := match support with RecorderWorks => true | _ => false end in
      let h := setMediaRecorderRef (Some r) h in
      let h := setAudioChunksRef [] h in
      let h := setProvider (Some assemblyai) h in
      let h := setRecorders
                 (recorders h ++ [{| recording := started;
                                     transcribeInterval := Some (now h + 3000)%N |}]) h in
      (started, h)
  end.

(** [startWebSpeech()] *)
Definition startWebSpeech (rt : runtime) (h : hook) : bool * hook :=
  match speechRecognition rt with
  | RecognitionAbsent => (false, h)
  | RecognitionThrows => (false, h)
  | RecognitionWorks =>
      (true, setProvider (Some webspeech) (setRecognitions (S (recognitions h)) h))
  end.

(** The [finally] block of [startRecording]; the call is over. *)
Definition finish (h : hook) : hook := setRunning NotRunning (setIsConnecting false h).

(** [startRecording] from the point where [startDeepgram] has answered
    [true]. *)
Definition streamingViable (h : hook) : hook := finish (setIsRecording true h).

(** [startRecording] from the point where [startDeepgram] has answered
    [false], to its end. *)
Definition streamingFailed (rt : runtime) (stream : nat) (h : hook) : hook :=
  let '(success, h) := startAssemblyAI rt (attempt assemblyai h) in
  if success then finish (setIsRecording true h)
  else
    let '(success, h) := startWebSpeech rt (attempt webspeech h) in
    if success then finish (setIsRecording true (stopTracks stream h))
    else finish (emit [OnError exhausted] (stopTracks stream h)).

(** The promise of socket [k] settles with [v], if [startRecording] is
    still waiting for it. *)
Definition resolve (rt : runtime) (k : nat) (v : bool) (h : hook) : hook :=
  match running h with
  | AwaitHandshake stream k' =>
      if bool_decide (k = k') then
        if v then streamingViable h else streamingFailed rt stream h
      else h
  | _ => h
  end.

(** [stopRecording()] *)
Definition stopRecording (h : hook) : hook :=
  let h :=
    match socketRef h with
    | Some k =>
        setSocketRef None
          (setSockets (alter (fun s => {| state := CLOSED; timeout := timeout s |}) k
                         (sockets h)) h)
    | None => h
    end in
  let h :=
    match mediaRecorderRef h with
    | Some r =>
        match recorders h !! r with
        | Some {| recording := true |} =>
            (* stop(), whose [onstop] clears the interval *)
            setMediaRecorderRef None
              (setRecorders (<[r := {| recording := false; transcribeInterval := None |}]>
                               (recorders h)) h)
        | _ => h
        end
    | None => h
    end in
  let h :=
    match streamRef h with
    | Some stream => setStreamRef None (stopTracks stream h)
    | None => h
    end in
  setProvider None (setIsRecording false h).

(** The deadlines of the timers that are armed. *)
Definition deadlines (h : hook) : list N :=
  omap timeout (sockets h) ++ omap transcribeInterval (recorders h).

(** One turn of the event loop. [None]: the event cannot occur in this
    state (no such object, timer not due, a second [startRecording]
    while one is in flight). *)
Definition step (rt : runtime) (e : event) (h : hook) : option hook :=
  match e with
  | StartRecording =>
      match running h with
      | NotRunning => Some (setRunning AwaitMicrophone (setIsConnecting true h))
      | _ => None
      end
  | StopRecording => Some (stopRecording h)
  | MicrophoneGranted =>
      match running h with
      | AwaitMicrophone =>
          let stream := length (streams h) in
          let h := setStreams (streams h ++ [true]) h in
          let h := setStreamRef (Some stream) h in
          Some (setRunning (AwaitConfig stream) (attempt deepgram h))
      | _ => None
      end
  | MicrophoneDenied =>
      match running h with
      | AwaitMicrophone => Some (finish (emit [OnError denied] h))
      | _ => None
      end
  | ConfigArrives c =>
      match running h with
      | AwaitConfig stream =>
          match c with
          | ConfigReady =>
              let k := length (sockets h) in
              let h := setSockets
                         (sockets h ++ [{| state := CONNECTING;
                                           timeout := Some (now h + 5000)%N |}]) h in
              Some (setRunning (AwaitHandshake stream k) h)
          | _ => Some (streamingFailed rt stream h)
          end
      | _ => None
      end
  | SocketOpen k =>
      match sockets h !! k with
      | Some {| state := CONNECTING |} =>
          let h := setSockets (<[k := {| state := OPEN; timeout := None |}]> (sockets h)) h in
          let h := setSocketRef (Some k) h in
          let h := setProvider (Some deepgram) h in
          Some (resolve rt k true h)
      | _ => None
      end
  | SocketError k =>
      match sockets h !! k with
      | Some {| state := CLOSED |} | None => None
      | Some _ =>
          let h := setSockets (<[k := {| state := CLOSED; timeout := None |}]> (sockets h)) h in
          Some (resolve rt k false h)
      end
  | SocketClose k =>
      match sockets h !! k with
      | Some {| state := OPEN; timeout := t |} =>
          Some (setSockets (<[k := {| state := CLOSED; timeout := t |}]> (sockets h)) h)
      | _ => None
      end
  | SocketMessage k m =>
      match sockets h !! k with
      | Some {| state := OPEN |} => Some (emit (Deepgram.onmessage m) h)
      | _ => None
      end
  | Timeout k =>
      match sockets h !! k with
      | Some {| timeout := Some due |} =>
          if (due <=? now h)%N then
            let h := setSockets (<[k := {| state := CLOSED; timeout := None |}]> (sockets h)) h in
            Some (resolve rt k false h)
          else None
      | _ => None
      end
  | DataAvailable r b =>
      match recorders h !! r with
      | Some {| recording := true |} =>
          Some (setAudioChunksRef (Chunker.ondataavailable (audioChunksRef h) b) h)
      | _ => None
      end
  | Tick r =>
      match recorders h !! r with
      | Some {| recording := on; transcribeInterval := Some due |} =>
          if (due <=? now h)%N then
            let h := setRecorders
                       (<[r := {| recording := on;
                                  transcribeInterval := Some (due + 3000)%N |}]>
                          (recorders h)) h in
            match Chunker.flush (audioChunksRef h) with
            | Some audioBlob =>
                Some (setRequests (requests h ++ [{| clip := audioBlob; pending := true |}]) h)
            | None => Some h
            end
          else None
      | _ => None
      end
  | Reply q a =>
      match requests h !! q with
      | Some {| clip := c; pending := true |} =>
          let h := setRequests (<[q := {| clip := c; pending := false |}]> (requests h)) h in
          let '(chunks, cbs) := Chunker.onreply (audioChunksRef h) a in
          Some (setAudioChunksRef chunks (emit cbs h))
      | _ => None
      end
  | RecognitionResult e =>
      if (0 <? recognitions h)%nat then Some (emit (WebSpeechApi.onresult e) h) else None
  | RecognitionError error =>
      if (0 <? recognitions h)%nat then Some (emit (WebSpeechApi.onerror error) h) else None
  | Elapse ms =>
      if forallb (fun due => (now h + ms <=? due)%N) (deadlines h)
      then Some (setNow (now h + ms)%N h)
      else None
  end.

(** A sequence of turns. *)
Fixpoint steps (rt : runtime) (es : list event) (h : hook) : option hook :=
  match es with
  | [] => Some h
  | e :: es' =>
      match step rt e h with
      | Some h' => steps rt es' h'
      | None => None
      end
  end.

(** The messages passed to [onError] so far, oldest first. *)
Definition messageOf (c : callback) : option string :=
  match c with
  | OnError msg => Some msg
  | OnTranscript _ _ => None
  end.

Definition errorOf (c : call) : option string := messageOf (what c).

Definition errors (h : hook) : list string := omap errorOf (calls h).

(** The turns that bring a fresh hook to a streaming handshake in
    flight: socket 0 is connecting on stream 0. *)
Definition connecting : list event :=
  [StartRecording; MicrophoneGranted; ConfigArrives ConfigReady].

(** The state once the microphone is granted, and the state the three
    turns lead to. *)
Definition granted : hook :=
  setRunning (AwaitConfig 0)
    (attempt deepgram
       (setStreamRef (Some 0)
          (setStreams [true] (setRunning AwaitMicrophone
                                (setIsConnecting true initial))))).

Definition handshaking : hook :=
  setRunning (AwaitHandshake 0 0)
    (setSockets [{| state := CONNECTING; timeout := Some 5000%N |}]
       (attempt deepgram
          (setStreamRef (Some 0)
             (setStreams [true] (setIsConnecting true initial))))).

(** The three kinds of message the hook passes to [onError]. *)
Definition surfaced (m : string) : Prop :=
  m = denied \/ m = exhausted
  \/ exists code, m = "Speech error: " +:+ code
                  /\ code <> "no-speech" /\ code <> "aborted".

Definition isGranted (e : event) : bool :=
  match e with MicrophoneGranted => true | _ => false end.

(** The fixed order of the chain. *)
Definition chain : list providerName := [deepgram; assemblyai; webspeech].

(** The stream held by the local variable of the call in flight. *)
Definition runStream (r : run) : option nat :=
  match r with
  | AwaitConfig stream | AwaitHandshake stream _ => Some stream
  | NotRunning | AwaitMicrophone => None
  end.

Definition holds (handle : option nat) : nat :=
  match handle with Some _ => 1 | None => 0 end.

(** Invariant of a session (one [startRecording] call, from the fresh
    hook) on the providers attempted so far. *)
Definition ordered (h : hook) : Prop :=
  match running h with
  | AwaitMicrophone => attempts h = []
  | AwaitConfig _ | AwaitHandshake _ _ => attempts h = [deepgram]
  | NotRunning => attempts h `prefix_of` chain
  end.

(** Invariant of a session on its microphone stream, before and after
    [getUserMedia] has resolved. The stream is number 0; while its tracks
    are live the ref holds it; each of the two holders of the stream
    (the ref, the call in flight) stops the tracks at most once. *)
Definition owned (granted : bool) (h : hook) : Prop :=
  if granted then
    exists live : bool,
      streams h = [live]
      /\ running h <> AwaitMicrophone
      /\ (forall s, runStream (running h) = Some s -> s = 0)
      /\ (forall s, streamRef h = Some s -> s = 0)
      /\ (live = true -> streamRef h = Some 0 /\ trackStops h = 0)
      /\ (live = false -> 1 <= trackStops h)
      /\ trackStops h + holds (streamRef h) + holds (runStream (running h)) <= 2
      /\ (exhausted ∈ errors h -> live = false)
      /\ (provider h = Some webspeech -> live = false)
  else
    streams h = [] /\ streamRef h = None /\ trackStops h = 0
    /\ (running h = AwaitMicrophone \/ running h = NotRunning)
    /\ (exhausted ∉ errors h)
    /\ provider h <> Some webspeech.

End Session.

(** ** Reading a key of an object literal *)

Module Obj.

(** [o[k]] for an object literal with the own properties [o]: the own
    property, else the member of [Object.prototype] of that name, else
    [undefined]. *)
Definition read (o : gmap string string) (k : string) : Lang.value :=
  match o !! k with
  | Some v => Lang.Str v
  | None => if bool_decide (k ∈ Lang.objectPrototype) then Lang.Builtin k
            else Lang.Undefined
  end.

(** [a || b] with a string for [b]. *)
Definition orElse (a : Lang.value) (b : string) : Lang.value :=
  if Lang.truthy a then a else Lang.Str b.

End Obj.

(** ** The streaming configuration route and its reader in [startDeepgram] *)

Module DeepgramConfig.

(** What the client reads of the answer of [GET]: the status class and the
    [apiKey] member of the body. *)
Record answer := { ok : bool; apiKey : option string }.



End DeepgramConfig.

(** ** The text-to-speech route (src/app/api/tts/route.ts) *)

Module Tts.

Definition VOICE_MAP : gmap string string :=
  <["en" := "aura-asteria-en"]> (<["es" := "aura-stella-en"]>
  (<["fr" := "aura-stella-en"]> (<["de" := "aura-stella-en"]>
  (<["zh" := "aura-stella-en"]> (<["hi" := "aura-stella-en"]>
  (<["ar" := "aura-stella-en"]> (<["pt" := "aura-stella-en"]>
  (<["ru" := "aura-stella-en"]> (<["ja" := "aura-stella-en"]>
  (<["ko" := "aura-stella-en"]> (<["vi" := "aura-stella-en"]> ∅))))))))))).

(** [VOICE_MAP[language] || 'aura-asteria-en'] *)
Definition voice (language : string) : Lang.value :=
  Obj.orElse (Obj.read VOICE_MAP language) "aura-asteria-en".

(** The body of the request, once parsed: the two members read, each a
    string or absent. *)
Record fields := { text : option string; language : option string }.

Inductive parsed :=
| BadJson (message : string)        (* [request.json()] rejects *)
| Fields (f : fields).

(** The outcome of the call to the speech service. *)
Inductive upstream :=
| FetchThrows (message : string)
| Answer (status : N) (audio : list Byte.byte).

(** [response.ok] *)
Definition isOk (status : N) : bool := (200 <=? status)%N && (status <=? 299)%N.

Inductive response :=
| Json (status : N) (error : string)
| Audio (contentType contentLength : string) (body : list Byte.byte).

(** [POST(request)]; [apiKey] is [process.env.DEEPGRAM_API_KEY]. A key
    [language] that is absent reads the property named 'undefined'. *)
Definition POST (apiKey : option string) (request : parsed) (up : upstream) : response :=
  if negb (Js.truthy (default "" apiKey)) then
    Json 500 "DEEPGRAM_API_KEY not configured"
  else
    match request with
    | BadJson message => Json 500 message
    | Fields f =>
        if negb (Js.truthy (default "" (text f))) then Json 400 "Text is required"
        else
          let voice := voice (default "undefined" (language f)) in
          match up with
          | FetchThrows message => Json 500 message
          | Answer status audio =>
              if negb (isOk status) then
                Json 500 ("Deepgram TTS failed: " +:+ pretty status)
              else
                Audio "audio/mpeg" (pretty (N.of_nat (length audio))) audio
          end
    end.

End Tts.

(** ** The translation route *)

Module Translate.

(** The class of the two quote characters, code units 34 and 39. *)
Definition isQuote (c : ascii) : bool :=
  bool_decide (c = ascii_of_nat 34) || bool_decide (c = ascii_of_nat 39).

(** Drop the last character when it is a quote: the second alternative of
    the pattern, a quote followed by the end of the input. *)
Fixpoint dropLastQuote (s : string) : string :=
  match s with
  | EmptyString => EmptyString
  | String c EmptyString => if isQuote c then EmptyString else s
  | String c s' => String c (dropLastQuote s')
  end.

(** [translation.replace(pattern, '')] with the global pattern of two
    alternatives: a quote at index 0, or a quote that ends the input; the
    search for the second resumes after a match of the first. *)
Definition stripQuotes (s : string) : string :=
  match s with
  | String c s' => if isQuote c then dropLastQuote s' else dropLastQuote s
  | EmptyString => EmptyString
  end.

Record fields := {
  text : option string;
  sourceLang : option string;
  targetLang : option string;
}.

Inductive parsed :=
| BadJson (message : string)
| Fields (f : fields).

(** The outcome of [cohere.chat(...)]: it rejects, or answers with a
    [text] member that may be absent. *)
Inductive chat :=
| ChatThrows (message : string)
| ChatText (text : option string).

Inductive response :=
| Error (status : N) (error : string)
| Translation (translation : string).

(** [response.text?.trim() || ''] then the removal of the quotes. *)
Definition clean (text : option string) : string :=
  stripQuotes (default "" (Js.trim <$> text)).

(** [POST(request)]; [apiKey] is [process.env.COHERE_API_KEY]. *)
Definition POST (request : parsed) (apiKey : option string) (c : chat) : response :=
  match request with
  | BadJson message => Error 500 message
  | Fields f =>
      let text := default "" (text f) in
      let sourceLang := default "" (sourceLang f) in
      let targetLang := default "" (targetLang f) in
      if negb (Js.truthy text) || negb (Js.truthy sourceLang)
         || negb (Js.truthy targetLang) then
        Error 400 "Missing required fields: text, sourceLang, targetLang"
      else if negb (Js.truthy (default "" apiKey)) then
        Error 500 "COHERE_API_KEY not configured"
      else if bool_decide (sourceLang = targetLang) then Translation text
      else
        match c with
        | ChatThrows message => Error 500 message
        | ChatText t => Translation (clean t)
        end
  end.

End Translate.

(** ** Resources held by a session, and invariants of the hook *)

Module Resources.

Import Session.

Fixpoint count {A : Type} (f : A -> bool) (l : list A) : nat :=
  match l with
  | [] => 0
  | x :: l' => (if f x then 1 else 0) + count f l'
  end.

(** A socket that is connecting or open. *)
Definition connected (s : socket) : bool :=
  match state s with
  | CLOSED => false
  | CONNECTING | OPEN => true
  end.

(** The provider resources that are live: sockets not closed, recorders
    recording, recognisers started. *)
Definition live (h : hook) : nat :=
  count connected (sockets h) + count recording (recorders h) + recognitions h.

(** Invariant of a session on the resources of its providers. *)
Definition exclusive (h : hook) : Prop :=
  match running h with
  | AwaitMicrophone | AwaitConfig _ =>
      sockets h = [] /\ recorders h = [] /\ recognitions h = 0
  | AwaitHandshake _ k =>
      k = 0 /\ length (sockets h) = 1 /\ recorders h = [] /\ recognitions h = 0
  | NotRunning =>
      length (sockets h) <= 1 /\ length (recorders h) <= 1 /\ live h <= 1
  end.


(** Invariant of the hook on the sockets and their timers: a socket is
    connecting exactly while its timer is armed, and the timer is then due
    at most 5000 ms from now; the call in flight waits for a connecting
    socket; the socket of [socketRef] has been opened. *)
Definition sound (clock : N) (s : socket) : Prop :=
  match timeout s with
  | Some due => state s = CONNECTING /\ (clock <= due)%N /\ (due <= clock + 5000)%N
  | None => state s <> CONNECTING
  end.

Definition timed (h : hook) : Prop :=
  (forall k s, sockets h !! k = Some s -> sound (now h) s)
  /\ (forall stream k, running h = AwaitHandshake stream k ->
        exists s, sockets h !! k = Some s /\ state s = CONNECTING)
  /\ (forall k, socketRef h = Some k ->
        exists s, sockets h !! k = Some s /\ state s <> CONNECTING).

(** The state of a session whose streaming provider is active: the state
    [handshaking] after socket 0 has opened. *)
Definition streaming : hook :=
  streamingViable
    (setProvider (Some deepgram)
       (setSocketRef (Some 0)
          (setSockets [{| state := OPEN; timeout := None |}] handshaking))).

(** A socket whose handshake is in flight. *)
Definition inFlight (s : socket) : bool :=
  match state s with
  | CONNECTING => true
  | OPEN | CLOSED => false
  end.

(** Invariant of a session on its refs: an open socket is the one held by
    [socketRef], a recording recorder the one held by [mediaRecorderRef]. *)
Definition referenced (h : hook) : Prop :=
  (forall k s, sockets h !! k = Some s -> state s = OPEN -> socketRef h = Some k)
  /\ (forall r x, recorders h !! r = Some x -> recording x = true ->
        mediaRecorderRef h = Some r).

End Resources.

(** * Properties *)

(** ** Language codes *)

(** The twelve listed codes map to their streaming-provider codes. *)
Lemma getDeepgramLanguage_listed :
  map Lang.getDeepgramLanguage
      ["en"; "es"; "fr"; "de"; "zh"; "hi"; "ar"; "pt"; "ru"; "ja"; "ko"; "vi"]
  = map Lang.Str
      ["en-US"; "es"; "fr"; "de"; "zh-CN"; "hi"; "ar"; "pt-BR"; "ru"; "ja"; "ko"; "vi"].
Proof. vm_compute. reflexivity. Qed.

(** A code that is neither listed nor the name of a member of
    [Object.prototype] maps to the default; the empty string is one. *)
Lemma getDeepgramLanguage_default (lang : string) :
  Lang.languageMap !! lang = None ->
  lang ∉ Lang.objectPrototype ->
  Lang.getDeepgramLanguage lang = Lang.Str "en-US".
Proof.
  intros Hown Hproto. unfold Lang.getDeepgramLanguage, Lang.get.
  rewrite Hown. rewrite bool_decide_eq_false_2 by exact Hproto. reflexivity.
Qed.

Lemma getDeepgramLanguage_empty : Lang.getDeepgramLanguage "" = Lang.Str "en-US".
Proof. vm_compute. reflexivity. Qed.

(** C10, at the input ["constructor"]: the read [languageMap[lang]] finds
    the member inherited from [Object.prototype], which is truthy, so the
    function yields that object and not the default ['en-US'] (nor any
    string). The same holds for each of the other inherited names. *)
Theorem getDeepgramLanguage_inherited_name :
  Lang.languageMap !! "constructor" = None
  /\ Lang.getDeepgramLanguage "constructor" = Lang.Builtin "constructor"
  /\ Lang.getDeepgramLanguage "constructor" <> Lang.Str "en-US"
  /\ Forall (fun name => Lang.getDeepgramLanguage name = Lang.Builtin name)
            Lang.objectPrototype.
Proof.
  split; [vm_compute; reflexivity|].
  split; [vm_compute; reflexivity|].
  split; [vm_compute; discriminate|].
  unfold Lang.objectPrototype.
  repeat (apply Forall_cons; split; [vm_compute; reflexivity|]).
  apply Forall_nil_2.
Qed.

(** ** Streaming transcoder *)

Section Truncate.

Local Open Scope Q_scope.

Lemma truncate_Z (z : Z) : Pcm.truncate (inject_Z z) = z.
Proof.
  unfold Pcm.truncate.
  destruct (Qle_bool 0 (inject_Z z)); [apply Qfloor_Z | apply Qceiling_Z].
Qed.

Lemma truncate_mono (x y : Q) : x <= y -> (Pcm.truncate x <= Pcm.truncate y)%Z.
Proof.
  intros Hxy. unfold Pcm.truncate.
  destruct (Qle_bool 0 x) eqn:Hx; destruct (Qle_bool 0 y) eqn:Hy.
  - by apply Qfloor_resp_le.
  - apply Qle_bool_iff in Hx.
    assert (0 <= y) as Hy' by (eapply Qle_trans; eassumption).
    apply Qle_bool_iff in Hy'. congruence.
  - apply Qle_bool_iff in Hy.
    assert (~ 0 <= x) as Hx' by (rewrite <- Qle_bool_iff; congruence).
    apply Qnot_le_lt, Qlt_le_weak in Hx'.
    apply Z.le_trans with 0%Z.
    + apply (Qceiling_resp_le x 0) in Hx'. exact Hx'.
    + apply (Qfloor_resp_le 0 y) in Hy. exact Hy.
  - by apply Qceiling_resp_le.
Qed.

End Truncate.

Lemma wrap16_int16 (z : Z) : Pcm.int16 z -> Pcm.wrap16 z = z.
Proof.
  unfold Pcm.int16, Pcm.wrap16. intros H.
  rewrite Z.mod_small by lia. lia.
Qed.

(** The stored sample is the truncated product clamped to the 16-bit range:
    the reduction modulo 2^16 of the store never takes effect. *)
Lemma sample_clamps (q : Q) :
  Pcm.sample (Pcm.Fin q)
  = Z.max (-32768) (Z.min 32767 (Pcm.truncate (q * 32768))).
Proof.
  unfold Pcm.sample, Pcm.times32768, Pcm.min, Pcm.max, Pcm.leb.
  destruct (Qle_bool 32767 (q * 32768)) eqn:Hhi.
  - (* clipped above *)
    apply Qle_bool_iff in Hhi. apply truncate_mono in Hhi.
    change (Pcm.truncate 32767) with (Pcm.truncate (inject_Z 32767)) in Hhi.
    rewrite truncate_Z in Hhi.
    change (Qle_bool (-32768) 32767) with true. cbn match.
    unfold Pcm.toInt16.
    change (Pcm.truncate 32767) with (Pcm.truncate (inject_Z 32767)).
    rewrite truncate_Z. rewrite wrap16_int16 by (unfold Pcm.int16; lia). lia.
  - assert (q * 32768 <= 32767)%Q as Hle.
    { apply Qlt_le_weak, Qnot_le_lt. rewrite <- Qle_bool_iff. congruence. }
    apply truncate_mono in Hle.
    change (Pcm.truncate 32767) with (Pcm.truncate (inject_Z 32767)) in Hle.
    rewrite truncate_Z in Hle.
    destruct (Qle_bool (-32768) (q * 32768)) eqn:Hlo.
    + apply Qle_bool_iff in Hlo. apply truncate_mono in Hlo.
      change (Pcm.truncate (-32768)) with (Pcm.truncate (inject_Z (-32768))) in Hlo.
      rewrite truncate_Z in Hlo.
      unfold Pcm.toInt16. rewrite wrap16_int16 by (unfold Pcm.int16; lia). lia.
    + assert (q * 32768 <= -32768)%Q as Hlt.
      { apply Qlt_le_weak, Qnot_le_lt. rewrite <- Qle_bool_iff. congruence. }
      apply truncate_mono in Hlt.
      change (Pcm.truncate (-32768)) with (Pcm.truncate (inject_Z (-32768))) in Hlt.
      rewrite truncate_Z in Hlt.
      unfold Pcm.toInt16.
      change (Pcm.truncate (-32768)) with (Pcm.truncate (inject_Z (-32768))).
      rewrite truncate_Z. rewrite wrap16_int16 by (unfold Pcm.int16; lia). lia.
Qed.

(** Whatever the float (NaN and the infinities included), the stored sample
    is a 16-bit value. *)
Lemma sample_int16 (x : Pcm.float) : Pcm.int16 (Pcm.sample x).
Proof.
  destruct x as [|[]|q].
  - vm_compute. split; discriminate.
  - vm_compute. split; discriminate.
  - vm_compute. split; discriminate.
  - rewrite sample_clamps. unfold Pcm.int16. lia.
Qed.

(** C4: a block of N samples in [-1, 1] converts to N samples, each within
    [-32768, 32767] and equal to the truncated product clamped to that range
    (no wrap-around); -1.0 gives -32768 and +1.0, whose product 32768 is out
    of range, gives 32767. *)
Theorem convert_block (inputData : list Pcm.float) :
  Forall Pcm.nominal inputData ->
  length (Pcm.convert inputData) = length inputData
  /\ Forall Pcm.int16 (Pcm.convert inputData)
  /\ Forall2 (fun x z => exists q, x = Pcm.Fin q
                /\ z = Z.max (-32768) (Z.min 32767 (Pcm.truncate (q * 32768))))
             inputData (Pcm.convert inputData)
  /\ Pcm.convert [Pcm.Fin (-1)] = [(-32768)%Z]
  /\ Pcm.convert [Pcm.Fin 1] = [32767%Z].
Proof.
  intros Hnom. unfold Pcm.convert.
  split; [apply length_map|].
  split; [apply Forall_map, Forall_forall; intros; apply sample_int16|].
  split; [|split; reflexivity].
  induction Hnom as [|x l Hx _ IH]; [constructor|].
  cbn [map]. constructor; [|exact IH].
  destruct x as [| |q]; try contradiction.
  exists q. split; [reflexivity | apply sample_clamps].
Qed.

Lemma convert_block_witness :
  Forall Pcm.nominal [Pcm.Fin 1; Pcm.Fin (-1); Pcm.Fin (1 # 2)]
  /\ Forall Pcm.int16 (Pcm.convert [Pcm.Fin 1; Pcm.Fin (-1); Pcm.Fin (1 # 2)]).
Proof.
  assert (Forall Pcm.nominal [Pcm.Fin 1; Pcm.Fin (-1); Pcm.Fin (1 # 2)]) as H.
  { repeat constructor; simpl; discriminate. }
  split; [exact H|].
  apply (convert_block [Pcm.Fin 1; Pcm.Fin (-1); Pcm.Fin (1 # 2)] H).
Defined.

(** ** Event normalisation *)

Lemma trimStart_blank (s : string) : Js.blank s = true -> Js.trimStart s = "".
Proof.
  induction s as [|c s IH]; [reflexivity|].
  cbn [Js.blank Js.trimStart]. intros [Hc Hs]%andb_true_iff.
  rewrite Hc. by apply IH.
Qed.

Lemma trim_truthy_not_blank (s : string) :
  Js.truthy (Js.trim s) = true -> Js.blank s = false.
Proof.
  intros H. destruct (Js.blank s) eqn:Hb; [|reflexivity].
  unfold Js.trim in H. rewrite (trimStart_blank s Hb) in H. discriminate.
Qed.

(** The streaming provider's handler forwards no text that is empty or
    white space only. *)
Lemma onmessage_not_blank (m : option Deepgram.data) (t : string) (f : bool) :
  OnTranscript t f ∈ Deepgram.onmessage m -> Js.blank t = false.
Proof.
  unfold Deepgram.onmessage. destruct m as [d|]; [|by intros ?%elem_of_nil].
  repeat case_bool_decide; try by intros ?%elem_of_nil.
  destruct (Deepgram.transcript d) as [u|]; [|by intros ?%elem_of_nil].
  destruct (Js.truthy u); [|by intros ?%elem_of_nil].
  destruct (Js.truthy (Js.trim u)) eqn:Hu; [|by intros ?%elem_of_nil].
  intros Hin%list_elem_of_singleton. injection Hin as -> _.
  by apply trim_truthy_not_blank.
Qed.

(** The batch provider's handler forwards no empty text. *)
Lemma onreply_not_empty (chunks : list Chunker.blob) (r : Chunker.reply)
    (t : string) (f : bool) :
  OnTranscript t f ∈ (Chunker.onreply chunks r).2 -> t <> "".
Proof.
  unfold Chunker.onreply.
  destruct r as [|[] [|[u|]]]; cbn; try by intros ?%elem_of_nil.
  destruct (Js.truthy u) eqn:Hu; cbn; [|by intros ?%elem_of_nil].
  intros Hin%list_elem_of_singleton. injection Hin as -> _.
  intros ->. discriminate.
Qed.

(** The local provider's handler forwards no empty text. *)
Lemma onresult_not_empty (e : WebSpeechApi.resultEvent) (t : string) (f : bool) :
  OnTranscript t f ∈ WebSpeechApi.onresult e -> t <> "".
Proof.
  unfold WebSpeechApi.onresult.
  destruct (fold_left _ _ _) as [interim final].
  intros [Hin|Hin]%elem_of_app.
  - destruct (Js.truthy interim) eqn:Hi; [|by apply elem_of_nil in Hin].
    apply list_elem_of_singleton in Hin. injection Hin as -> _.
    intros ->. discriminate.
  - destruct (Js.truthy final) eqn:Hi; [|by apply elem_of_nil in Hin].
    apply list_elem_of_singleton in Hin. injection Hin as -> _.
    intros ->. discriminate.
Qed.

(** C1, at a text of one space: the batch handler tests [result.transcript]
    and the local handler tests [interim] and [final] for truthiness only,
    where the streaming handler tests [transcript.trim()]; a transcript
    of white space passes both tests and reaches [onTranscript], in the
    handlers and in a session whose batch provider is active. *)
Theorem blank_text_forwarded :
  Js.blank " " = true
  /\ Deepgram.onmessage
       (Some {| Deepgram.type := Some "Results"; Deepgram.transcript := Some " ";
                Deepgram.is_final := Some true |}) = []
  /\ (Chunker.onreply [{| Chunker.size := 20000 |}]
        (Chunker.Response true (Chunker.Json (Some " ")))).2
     = [OnTranscript " " true]
  /\ WebSpeechApi.onresult
       {| WebSpeechApi.resultIndex := 0;
          WebSpeechApi.results :=
            [{| WebSpeechApi.transcript := " "; WebSpeechApi.isFinal := false |}] |}
     = [OnTranscript " " false]
  /\ (Session.calls <$>
      Session.steps
        {| Session.mediaRecorder := Session.RecorderWorks;
           Session.speechRecognition := Session.RecognitionWorks |}
        [Session.StartRecording; Session.MicrophoneGranted;
         Session.ConfigArrives Session.ConfigNotOk;
         Session.DataAvailable 0 {| Chunker.size := 20000 |};
         Session.Elapse 3000; Session.Tick 0;
         Session.Reply 0 (Chunker.Response true (Chunker.Json (Some " ")))]
        Session.initial)
     = Some [{| Session.what := OnTranscript " " true;
                Session.isRecordingThen := true |}].
Proof. repeat split; vm_compute; reflexivity. Qed.

(** ** Batch chunker *)

Lemma flush_iff (audioChunks : list Chunker.blob) :
  Chunker.flush audioChunks = Some audioChunks
  <-> (10000 < Chunker.blobSize audioChunks)%N.
Proof.
  unfold Chunker.flush.
  destruct audioChunks as [|b l].
  - cbn. split; [discriminate | lia].
  - cbn [length]. change (0 <? S (length l))%nat with true. cbn match.
    destruct (N.ltb_spec 10000 (Chunker.blobSize (b :: l))).
    + split; [done | reflexivity].
    + split; [discriminate | lia].
Qed.

Lemma flush_whole (audioChunks clip : list Chunker.blob) :
  Chunker.flush audioChunks = Some clip -> clip = audioChunks.
Proof.
  unfold Chunker.flush.
  destruct (0 <? length audioChunks)%nat; [|discriminate].
  destruct (10000 <? Chunker.blobSize audioChunks)%N; [|discriminate].
  congruence.
Qed.

(** C7 as stated fails: a request that went through (status 2xx) but whose
    transcript is empty, as the route answers for audio without speech,
    leaves the accumulator as it was. *)
Lemma flush_success_keeps_accumulator :
  let audioChunks := [{| Chunker.size := 20000 |}] in
  let r := Chunker.Response true (Chunker.Json (Some "")) in
  Chunker.flush audioChunks = Some audioChunks
  /\ Chunker.succeeded r = true
  /\ (Chunker.onreply audioChunks r).1 = audioChunks
  /\ ~ (forall chunks r, Chunker.succeeded r = true -> (Chunker.onreply chunks r).1 = []).
Proof.
  cbn zeta. split; [vm_compute; reflexivity|].
  split; [reflexivity|]. split; [reflexivity|].
  intros H.
  specialize (H [{| Chunker.size := 20000 |}]
                (Chunker.Response true (Chunker.Json (Some ""))) eq_refl).
  discriminate H.
Qed.

(** C7, amended: on a tick the whole accumulator is posted as one clip if
    and only if its size exceeds 10000 bytes, otherwise nothing is posted;
    a reply with status ok and a non-empty transcript clears the accumulator
    and forwards that transcript as final; any other outcome (rejected
    request, status not ok, body without a transcript or with an empty one)
    leaves the accumulator as it was and forwards nothing. *)
Theorem flush_and_reply (audioChunks : list Chunker.blob) :
  (Chunker.flush audioChunks = Some audioChunks
   <-> (10000 < Chunker.blobSize audioChunks)%N)
  /\ (Chunker.flush audioChunks = None
      <-> (Chunker.blobSize audioChunks <= 10000)%N)
  /\ (forall t, t <> "" ->
        Chunker.onreply audioChunks (Chunker.Response true (Chunker.Json (Some t)))
        = ([], [OnTranscript t true]))
  /\ (forall r, (forall t, t <> "" -> r <> Chunker.Response true (Chunker.Json (Some t))) ->
        Chunker.onreply audioChunks r = (audioChunks, [])).
Proof.
  split; [apply flush_iff|]. split.
  - destruct (Chunker.flush audioChunks) as [clip|] eqn:Hf.
    + pose proof (flush_whole _ _ Hf) as ->. apply flush_iff in Hf.
      split; [discriminate | lia].
    + split; [|reflexivity]. intros _.
      destruct (N.le_gt_cases (Chunker.blobSize audioChunks) 10000) as [|Hgt]; [done|].
      apply flush_iff in Hgt. congruence.
  - split.
    + intros t Ht. unfold Chunker.onreply. destruct t; [congruence | reflexivity].
    + intros r Hr. unfold Chunker.onreply.
      destruct r as [|[] [|[t|]]]; try reflexivity.
      destruct t as [|c t]; [reflexivity|].
      exfalso. by apply (Hr (String c t)).
Qed.

(** ** The session machine: general facts *)

Section SessionFacts.

Import Session.

Variable rt : runtime.

Lemma errors_calls (h : hook) (b : bool) (cbs : list callback) :
  omap errorOf
    (calls h ++ map (fun c => {| what := c; isRecordingThen := b |}) cbs)%list
  = (errors h ++ omap messageOf cbs)%list.
Proof.
  unfold errors. rewrite omap_app. f_equal.
  induction cbs as [|c cbs IH]; [reflexivity|].
  cbn. unfold errorOf at 1. cbn. destruct (messageOf c); by rewrite IH.
Qed.

Lemma onmessage_no_error (m : option Deepgram.data) :
  omap messageOf (Deepgram.onmessage m) = [].
Proof. unfold Deepgram.onmessage. repeat case_match; reflexivity. Qed.

Lemma onreply_no_error (chunks chunks' : list Chunker.blob) (a : Chunker.reply)
    (cbs : list callback) :
  Chunker.onreply chunks a = (chunks', cbs) -> omap messageOf cbs = [].
Proof.
  unfold Chunker.onreply. intros H. repeat case_match; by simplify_eq.
Qed.

Lemma onresult_no_error (e : WebSpeechApi.resultEvent) :
  omap messageOf (WebSpeechApi.onresult e) = [].
Proof. unfold WebSpeechApi.onresult. repeat case_match; reflexivity. Qed.

Lemma onerror_error (code : string) :
  omap messageOf (WebSpeechApi.onerror code)
  = if bool_decide (code ≠ "no-speech") && bool_decide (code ≠ "aborted")
    then ["Speech error: " +:+ code] else [].
Proof. unfold WebSpeechApi.onerror. case_match; reflexivity. Qed.

Lemma errors_snoc (l : list call) (m : string) (b : bool) :
  omap errorOf (l ++ [{| what := OnError m; isRecordingThen := b |}])%list
  = (omap errorOf l ++ [m])%list.
Proof. by rewrite omap_app. Qed.

(** What [stopRecording] leaves alone. *)
Lemma stopRecording_keeps (h : hook) :
  running (stopRecording h) = running h
  /\ attempts (stopRecording h) = attempts h
  /\ calls (stopRecording h) = calls h
  /\ recognitions (stopRecording h) = recognitions h
  /\ isRecording (stopRecording h) = false
  /\ provider (stopRecording h) = None
  /\ streamRef (stopRecording h) = None
  /\ length (streams (stopRecording h)) = length (streams h).
Proof.
  unfold stopRecording.
  repeat case_match; cbn -[insert alter lookup] in *;
    rewrite ?length_insert; repeat split; done.
Qed.

Ltac step_cases H :=
  unfold step in H; repeat case_match; simplify_eq.

Ltac step_inv H :=
  unfold step in H;
  repeat (match type of H with
          | context [match ?x with _ => _ end] => destruct x eqn:?
          end; try discriminate H);
  simplify_eq.

Ltac run_chain :=
  unfold resolve, streamingFailed, streamingViable, startAssemblyAI, startWebSpeech;
  cbn -[insert alter lookup];
  repeat case_match; simplify_eq; cbn -[insert alter lookup].

(** The promise of a socket settles the call in flight or nobody. *)
Lemma resolve_cases (k : nat) (v : bool) (h : hook) :
  (resolve rt k v h = h /\ forall s, running h <> AwaitHandshake s k)
  \/ exists stream, running h = AwaitHandshake stream k
       /\ resolve rt k v h
          = if v then streamingViable h else streamingFailed rt stream h.
Proof.
  unfold resolve. destruct (running h) as [| | |stream k'] eqn:Hr;
    try (left; split; [reflexivity | congruence]).
  case_bool_decide as Hk.
  - subst k'. right. by exists stream.
  - left. split; [reflexivity | congruence].
Qed.

(** The three ways the chain ends once the streaming provider has failed:
    batch provider started, local provider started, nothing started. *)
Lemma streamingFailed_fields (stream : nat) (h : hook) :
  let h' := streamingFailed rt stream h in
  running h' = NotRunning /\ streamRef h' = streamRef h
  /\ socketRef h' = socketRef h /\ sockets h' = sockets h
  /\ ((mediaRecorder rt = RecorderWorks
       /\ attempts h' = (attempts h ++ [assemblyai])%list
       /\ streams h' = streams h /\ trackStops h' = trackStops h
       /\ calls h' = calls h
       /\ provider h' = Some assemblyai /\ isRecording h' = true)
      \/ (mediaRecorder rt <> RecorderWorks
          /\ speechRecognition rt = RecognitionWorks
          /\ attempts h' = (attempts h ++ [assemblyai; webspeech])%list
          /\ streams h' = <[stream := false]> (streams h)
          /\ trackStops h' = S (trackStops h)
          /\ calls h' = calls h
          /\ provider h' = Some webspeech /\ isRecording h' = true)
      \/ (mediaRecorder rt <> RecorderWorks
          /\ speechRecognition rt <> RecognitionWorks
          /\ attempts h' = (attempts h ++ [assemblyai; webspeech])%list
          /\ streams h' = <[stream := false]> (streams h)
          /\ trackStops h' = S (trackStops h)
          /\ calls h'
             = (calls h ++ [{| what := OnError exhausted;
                               isRecordingThen := isRecording h |}])%list
          /\ (provider h' = provider h \/ provider h' = Some assemblyai)
          /\ isRecording h' = isRecording h
          /\ recognitions h' = recognitions h)).
Proof.
  unfold streamingFailed, startAssemblyAI, startWebSpeech.
  destruct (mediaRecorder rt) eqn:Hm, (speechRecognition rt) eqn:Hs;
    cbn -[insert]; rewrite <- ?app_assoc; cbn -[insert].
  all: repeat split; try done.
  all: first [ left; repeat split; done
             | right; left; repeat split; done
             | right; right; repeat split; first [done | by left | by right] ].
Qed.
(** What one turn can add to the messages passed to [onError]. *)
Lemma step_errors (e : event) (h h' : hook) :
  step rt e h = Some h' ->
  errors h' = errors h
  \/ (e = MicrophoneDenied /\ errors h' = (errors h ++ [denied])%list)
  \/ (errors h' = (errors h ++ [exhausted])%list
      /\ ((exists c, e = ConfigArrives c) \/ (exists k, e = SocketError k)
          \/ (exists k, e = Timeout k)))
  \/ (exists code, e = RecognitionError code
        /\ code <> "no-speech" /\ code <> "aborted"
        /\ errors h' = (errors h ++ ["Speech error: " +:+ code])%list).
Proof.
  intros Hstep. destruct e; step_cases Hstep.
  all: try (left; reflexivity).
  all: try (left; by destruct (stopRecording_keeps h) as (_ & _ & Hc & _);
            unfold errors; rewrite Hc).
  all: run_chain.
  all: try (left; reflexivity).
  all: unfold errors; rewrite ?errors_snoc.
  all: try (right; left; split; reflexivity).
  all: try (right; right; left; split; [reflexivity | eauto 6]).
  all: rewrite errors_calls; unfold errors.
  - left. by rewrite onmessage_no_error, app_nil_r.
  - left. by rewrite (onreply_no_error _ _ _ _ ltac:(eassumption)), app_nil_r.
  - left. by rewrite onresult_no_error, app_nil_r.
  - rewrite onerror_error.
    destruct (bool_decide (error ≠ "no-speech")) eqn:H1;
      [|left; by rewrite app_nil_r].
    destruct (bool_decide (error ≠ "aborted")) eqn:H2;
      [|left; by rewrite app_nil_r].
    apply bool_decide_eq_true in H1, H2.
    right; right; right. exists error. by cbn.
Qed.

(** With no call in flight and no new [startRecording], a turn attempts
    no provider, starts no recogniser and never sets [isRecording]. *)
Lemma step_idle (e : event) (h h' : hook) :
  running h = NotRunning -> e <> StartRecording -> step rt e h = Some h' ->
  running h' = NotRunning
  /\ attempts h' = attempts h
  /\ recognitions h' = recognitions h
  /\ (isRecording h = false -> isRecording h' = false)
  /\ (recognitions h = 0 -> errors h' = errors h).
Proof.
  intros Hrun Hstart Hstep.
  destruct e; try congruence; step_cases Hstep.
  all: try (destruct (stopRecording_keeps h) as (? & ? & Hc & ? & ? & _);
            unfold errors; rewrite ?Hc; repeat split; try done; congruence).
  all: unfold resolve; cbn -[insert alter lookup]; rewrite ?Hrun.
  all: repeat split; try done.
  all: try (intros Hz; rewrite Hz in *; discriminate).
  all: intros _; rewrite errors_calls.
  all: rewrite ?onmessage_no_error,
         ?(onreply_no_error _ _ _ _ ltac:(eassumption)), ?app_nil_r; done.
Qed.

Lemma steps_idle (es : list event) (h h' : hook) :
  running h = NotRunning -> StartRecording ∉ es -> steps rt es h = Some h' ->
  running h' = NotRunning
  /\ attempts h' = attempts h
  /\ recognitions h' = recognitions h
  /\ (isRecording h = false -> isRecording h' = false)
  /\ (recognitions h = 0 -> errors h' = errors h).
Proof.
  revert h. induction es as [|e es IH]; intros h Hrun Hno Hsteps.
  - cbn in Hsteps. by simplify_eq.
  - cbn in Hsteps. destruct (step rt e h) as [h1|] eqn:Hstep; [|discriminate].
    apply not_elem_of_cons in Hno as [Hne Hno].
    destruct (step_idle e h h1 Hrun ltac:(congruence) Hstep)
      as (Hr1 & Ha1 & Hg1 & Hi1 & He1).
    destruct (IH h1 Hr1 Hno Hsteps) as (Hr2 & Ha2 & Hg2 & Hi2 & He2).
    repeat split; try congruence.
    + intros Hi. by apply Hi2, Hi1.
    + intros Hz. rewrite He2 by congruence. by apply He1.
Qed.

(** *** The order of the chain *)

Lemma streamingFailed_ordered (stream : nat) (h : hook) :
  attempts h = [deepgram] -> ordered (streamingFailed rt stream h).
Proof.
  intros Ha. unfold ordered.
  destruct (streamingFailed_fields stream h) as (-> & _ & _ & _ & Hcases).
  destruct Hcases as [(_ & -> & _) | [(_ & _ & -> & _) | (_ & _ & -> & _)]];
    rewrite Ha; unfold chain; cbn; by eexists.
Qed.

Lemma resolve_ordered (k : nat) (v : bool) (h : hook) :
  ordered h -> ordered (resolve rt k v h).
Proof.
  intros Hord.
  destruct (resolve_cases k v h) as [[-> _] | (stream & Hr & ->)]; [done|].
  unfold ordered in Hord. rewrite Hr in Hord.
  destruct v; [|by apply streamingFailed_ordered].
  unfold ordered, streamingViable. cbn. rewrite Hord. unfold chain. by eexists.
Qed.

Lemma step_ordered (e : event) (h h' : hook) :
  ordered h -> e <> StartRecording -> step rt e h = Some h' -> ordered h'.
Proof.
  intros Hord Hne Hstep.
  destruct e; try congruence; step_inv Hstep.
  all: try (apply resolve_ordered).
  all: try (apply streamingFailed_ordered; unfold ordered in Hord;
            by rewrite Heqr in Hord).
  all: unfold ordered in *.
  all: try (destruct (stopRecording_keeps h) as (-> & -> & _); exact Hord).
  all: cbn -[insert alter lookup]; try exact Hord.
  all: try (rewrite Heqr in Hord; rewrite Hord).
  all: try done.
  all: try (by eexists).
Qed.

Lemma steps_ordered (es : list event) (h h' : hook) :
  ordered h -> StartRecording ∉ es -> steps rt es h = Some h' -> ordered h'.
Proof.
  revert h. induction es as [|e es IH]; intros h Hord Hno Hsteps.
  - cbn in Hsteps. by simplify_eq.
  - cbn in Hsteps. destruct (step rt e h) as [h1|] eqn:Hstep; [|discriminate].
    apply not_elem_of_cons in Hno as [Hne Hno].
    apply (IH h1); [|done..].
    by apply (step_ordered e h).
Qed.

(** *** The microphone stream *)

Lemma stopRecording_stream (h : hook) :
  match streamRef h with
  | Some s => streams (stopRecording h) = <[s := false]> (streams h)
              /\ trackStops (stopRecording h) = S (trackStops h)
  | None => streams (stopRecording h) = streams h
            /\ trackStops (stopRecording h) = trackStops h
  end.
Proof.
  unfold stopRecording.
  repeat case_match; cbn -[insert alter lookup] in *; simplify_eq; done.
Qed.

Lemma stopRecording_owned (g : bool) (h : hook) :
  owned g h -> owned g (stopRecording h).
Proof.
  destruct (stopRecording_keeps h) as (Hr & _ & Hc & _ & _ & Hp & Hs & _).
  pose proof (stopRecording_stream h) as Hst.
  unfold owned, errors. rewrite Hr, Hc, Hp, Hs.
  destruct g.
  - intros (live & Hl & Hm & Hrs & Hsr & Hlive & Hdead & Hb & Hex & Hws).
    destruct (streamRef h) as [s|] eqn:Href.
    + destruct Hst as [-> ->]. rewrite (Hsr s eq_refl), Hl.
      exists false. cbn in *. repeat split; try done; try lia.
    + destruct Hst as [-> ->]. exists live. rewrite Hl.
      assert (live = false) as -> by (destruct live; [by destruct Hlive|done]).
      cbn in *. repeat split; try done; try lia.
  - intros (Hl & Href & Ht & Hrun & Hex & _). rewrite Href in Hst.
    destruct Hst as [-> ->]. done.
Qed.

Lemma streamingFailed_owned (h : hook) :
  owned true h -> runStream (running h) = Some 0 ->
  owned true (streamingFailed rt 0 h).
Proof.
  intros (live & Hl & Hm & Hrs & Hsr & Hlive & Hdead & Hb & Hex & Hws) Hrun.
  destruct (streamingFailed_fields 0 h) as (Hr & Href & _ & _ & Hcases).
  unfold owned, errors. rewrite Hr, Href. rewrite Hrun in Hb. cbn in Hb.
  destruct Hcases as
    [(_ & _ & -> & -> & -> & -> & _)
    | [(_ & _ & _ & -> & -> & -> & -> & _)
      | (_ & _ & _ & -> & -> & -> & Hp & _)]].
  - exists live. cbn. repeat split; try done; try lia; auto; by apply Hlive.
  - exists false. rewrite Hl. cbn. repeat split; try done; try lia.
  - exists false. rewrite Hl. cbn. repeat split; try done; try lia.
Qed.

Lemma resolve_owned (k : nat) (v : bool) (h : hook) :
  owned true h -> owned true (resolve rt k v h).
Proof.
  intros Hown.
  destruct (resolve_cases k v h) as [[-> _] | (stream & Hr & ->)]; [done|].
  assert (stream = 0) as ->.
  { destruct Hown as (live & _ & _ & Hrs & _). apply Hrs. by rewrite Hr. }
  destruct v; [|apply streamingFailed_owned; [done | by rewrite Hr]].
  destruct Hown as (live & Hl & Hm & Hrs & Hsr & Hlive & Hdead & Hb & Hex & Hws).
  exists live. unfold streamingViable, errors in *. rewrite Hr in *. cbn in *.
  repeat split; try done; try lia; auto; by apply Hlive.
Qed.

Lemma exhausted_kept (e : event) (h h' : hook) :
  step rt e h = Some h' ->
  (forall c, e <> ConfigArrives c) -> (forall k, e <> SocketError k) ->
  (forall k, e <> Timeout k) ->
  exhausted ∈ errors h' -> exhausted ∈ errors h.
Proof.
  intros Hstep Hc Hs Ht.
  destruct (step_errors e h h' Hstep)
    as [-> | [[_ ->] | [[_ Hev] | (code & _ & _ & _ & ->)]]]; [done| | |].
  - intros [?|Hin%list_elem_of_singleton]%elem_of_app; [done|discriminate].
  - exfalso. destruct Hev as [[c ->] | [[k ->] | [k ->]]];
      [by eapply Hc | by eapply Hs | by eapply Ht].
  - intros [?|Hin%list_elem_of_singleton]%elem_of_app; [done|discriminate].
Qed.

(** [owned] reads six fields only. *)
Lemma owned_frame (g : bool) (h h2 : hook) :
  streams h2 = streams h -> running h2 = running h ->
  streamRef h2 = streamRef h -> trackStops h2 = trackStops h ->
  (exhausted ∈ errors h2 -> exhausted ∈ errors h) ->
  (provider h2 = Some webspeech -> provider h = Some webspeech) ->
  owned g h -> owned g h2.
Proof.
  intros Hs Hr Hf Ht He Hp. unfold owned. rewrite Hs, Hr, Hf, Ht.
  destruct g.
  - intros (live & ? & ? & ? & ? & ? & ? & ? & Hex & Hws).
    exists live. repeat split; try done; [by apply H3 | by apply H3 | auto..].
  - intros (? & ? & ? & ? & Hex & Hws). repeat split; try done.
    + intros Hin. by apply Hex, He.
    + intros Hin. by apply Hws, Hp.
Qed.

Lemma resolve_frame (g : bool) (k : nat) (v : bool) (h : hook) :
  owned g h -> owned g (resolve rt k v h).
Proof.
  destruct g; [apply resolve_owned|]. intros Hown.
  destruct (resolve_cases k v h) as [[-> _] | (stream & Hr & _)]; [done|].
  destruct Hown as (_ & _ & _ & [?|?] & _); congruence.
Qed.

Lemma step_owned (g : bool) (e : event) (h h' : hook) :
  owned g h -> e <> StartRecording -> step rt e h = Some h' ->
  owned (g || isGranted e) h'.
Proof.
  intros Hown Hne Hstep.
  pose proof (exhausted_kept e h h' Hstep) as Hkept.
  destruct e; try congruence; cbn [isGranted]; rewrite ?orb_false_r, ?orb_true_r.
  all: step_inv Hstep.
  all: try (by apply stopRecording_owned).
  all: try (apply (owned_frame g h); [done..| (by apply Hkept) | done | done]).
  all: clear Hkept.
  - (* getUserMedia resolves *)
    destruct g; [by destruct Hown as (? & _ & ? & _)|].
    destruct Hown as (Hs & Href & Ht & _ & Hex & Hws).
    exists true. unfold errors in *. cbn. rewrite Hs, Ht. cbn.
    repeat split; try done; try lia; congruence.
  - (* getUserMedia rejects *)
    destruct g; [by destruct Hown as (? & _ & ? & _)|].
    destruct Hown as (Hs & Href & Ht & _ & Hex & Hws).
    unfold owned, errors in *. cbn. rewrite errors_snoc.
    repeat split; try done; [by right|].
    intros [?|Hin%list_elem_of_singleton]%elem_of_app; [done|discriminate].
  - destruct g; [|destruct Hown as (_ & _ & _ & [?|?] & _); congruence].
    assert (stream = 0) as ->.
    { destruct Hown as (? & _ & _ & Hrs & _). apply Hrs. by rewrite Heqr. }
    apply streamingFailed_owned; [done | by rewrite Heqr].
  - destruct g; [|destruct Hown as (_ & _ & _ & [?|?] & _); congruence].
    assert (stream = 0) as ->.
    { destruct Hown as (? & _ & _ & Hrs & _). apply Hrs. by rewrite Heqr. }
    apply streamingFailed_owned; [done | by rewrite Heqr].
  - destruct g; [|destruct Hown as (_ & _ & _ & [?|?] & _); congruence].
    assert (stream = 0) as ->.
    { destruct Hown as (? & _ & _ & Hrs & _). apply Hrs. by rewrite Heqr. }
    apply streamingFailed_owned; [done | by rewrite Heqr].
  - destruct g; [|destruct Hown as (_ & _ & _ & [?|?] & _); congruence].
    destruct Hown as (live & Hl & Hm & Hrs & Hsr & Hlive & Hdead & Hb & Hex & Hws).
    exists live. unfold errors in *. rewrite Heqr in *. cbn in *.
    repeat split; try done; auto; by apply Hlive.
  - apply resolve_frame. by apply (owned_frame g h).
  - apply resolve_frame. by apply (owned_frame g h).
  - apply resolve_frame. by apply (owned_frame g h).
  - apply resolve_frame. by apply (owned_frame g h).
Qed.

Lemma steps_owned (g : bool) (es : list event) (h h' : hook) :
  owned g h -> StartRecording ∉ es -> steps rt es h = Some h' ->
  owned (g || existsb isGranted es) h'.
Proof.
  revert g h. induction es as [|e es IH]; intros g h Hown Hno Hsteps.
  - cbn in *. simplify_eq. by rewrite orb_false_r.
  - cbn in Hsteps. destruct (step rt e h) as [h1|] eqn:Hstep; [|discriminate].
    apply not_elem_of_cons in Hno as [Hne Hno].
    cbn [existsb]. rewrite orb_assoc.
    apply (IH _ h1); [|done..].
    by apply (step_owned g e h).
Qed.

(** *** Messages passed to [onError] *)

Lemma steps_surfaced (es : list event) (h h' : hook) :
  Forall surfaced (errors h) -> steps rt es h = Some h' ->
  Forall surfaced (errors h').
Proof.
  revert h. induction es as [|e es IH]; intros h Hall Hsteps.
  - cbn in Hsteps. by simplify_eq.
  - cbn in Hsteps. destruct (step rt e h) as [h1|] eqn:Hstep; [|discriminate].
    apply (IH h1); [|done].
    destruct (step_errors e h h1 Hstep)
      as [-> | [[_ ->] | [[-> _] | (code & _ & ? & ? & ->)]]]; [done|..];
      apply Forall_app; (split; [done|]); apply Forall_singleton.
    + by left.
    + right. by left.
    + right. right. by exists code.
Qed.

End SessionFacts.

(** ** The session machine: the claims *)

Import Session.

(** C9 as stated fails: with the local provider active, a recogniser error
    other than 'no-speech' and 'aborted' is passed to [onError]; the message
    is neither the permission denial nor the exhaustion of the chain. *)
Lemma recognition_error_reaches_onError :
  exists h,
    steps {| mediaRecorder := RecorderConstructorThrows;
             speechRecognition := RecognitionWorks |}
      [StartRecording; MicrophoneGranted; ConfigArrives ConfigNotOk;
       RecognitionError "network"] initial = Some h
    /\ provider h = Some webspeech
    /\ errors h = ["Speech error: network"]
    /\ "Speech error: network" <> denied
    /\ "Speech error: network" <> exhausted.
Proof.
  eexists. split; [vm_compute; reflexivity|].
  split_and!; [reflexivity | reflexivity | discriminate | discriminate].
Qed.

(** C9, amended: every message passed to [onError] is the permission
    denial, the exhaustion of the chain, or 'Speech error: <code>' for a
    recogniser error whose code is neither 'no-speech' nor 'aborted'; and a
    turn that is neither the rejection of the microphone nor a recogniser
    error (so every turn of the streaming and batch providers) passes
    nothing to [onError] except, when it ends the chain, the exhaustion
    message. *)
Theorem onError_messages (rt : runtime) (es : list event) (h : hook) :
  steps rt es initial = Some h ->
  Forall surfaced (errors h)
  /\ (forall e h', step rt e h = Some h' ->
        e <> MicrophoneDenied -> (forall code, e <> RecognitionError code) ->
        errors h' = errors h \/ errors h' = (errors h ++ [exhausted])%list).
Proof.
  intros Hsteps. split.
  - apply (steps_surfaced rt es initial); [constructor | done].
  - intros e h' Hstep Hd Hr.
    destruct (step_errors rt e h h' Hstep)
      as [Hsame | [[Hden _] | [[Hexh _] | (code & Hrec & _)]]].
    + by left.
    + done.
    + by right.
    + by destruct (Hr code).
Qed.

Lemma onError_messages_witness :
  Forall surfaced [denied].
Proof.
  apply (onError_messages
           {| mediaRecorder := RecorderWorks; speechRecognition := RecognitionWorks |}
           [StartRecording; MicrophoneDenied]
           (finish (emit [OnError denied] (setRunning AwaitMicrophone
                                             (setIsConnecting true initial))))).
  reflexivity.
Defined.

Lemma steps_connecting (rt : runtime) :
  steps rt connecting initial = Some handshaking.
Proof. reflexivity. Qed.

Lemma steps_app (rt : runtime) (es1 es2 : list event) (h : hook) :
  steps rt (es1 ++ es2) h
  = match steps rt es1 h with Some h1 => steps rt es2 h1 | None => None end.
Proof.
  revert h. induction es1 as [|e es1 IH]; intros h; [reflexivity|].
  cbn. destruct (step rt e h); [apply IH | reflexivity].
Qed.

(** C5: the chain runs in the order streaming, batch, local. When the
    handshake arrives less than 5000 ms after the socket was made, the
    streaming provider is active and no other provider is attempted then or
    later in the session; when it has not arrived at 5000 ms the timer
    fires, the socket is closed and the batch provider is attempted next;
    time cannot pass 5000 ms with the handshake still in flight. *)
Theorem streaming_window (rt : runtime) (ms : N) :
  (ms < 5000)%N ->
  (exists h,
     steps rt (connecting ++ [Elapse ms; SocketOpen 0]) initial = Some h
     /\ provider h = Some deepgram /\ isRecording h = true
     /\ attempts h = [deepgram]
     /\ forall es h', StartRecording ∉ es -> steps rt es h = Some h' ->
          attempts h' = [deepgram])
  /\ (exists h,
        steps rt (connecting ++ [Elapse 5000; Timeout 0]) initial = Some h
        /\ state <$> sockets h !! 0 = Some CLOSED
        /\ take 2 (attempts h) = [deepgram; assemblyai])
  /\ (forall late, (5000 < late)%N ->
        steps rt (connecting ++ [Elapse late]) initial = None)
  /\ (forall es h, StartRecording ∉ es ->
        steps rt (StartRecording :: es) initial = Some h ->
        attempts h `prefix_of` chain).
Proof.
  intros Hms. split_and!.
  - rewrite steps_app, steps_connecting. cbn -[N.leb N.add].
    replace (0 + ms <=? 5000)%N with true by (symmetry; apply N.leb_le; lia).
    cbn -[N.add]. eexists. split; [reflexivity|]. split_and!; try reflexivity.
    intros es h' Hno Hsteps.
    eapply steps_idle in Hsteps as (_ & -> & _); [reflexivity | reflexivity | done].
  - rewrite steps_app, steps_connecting.
    set (h0 := setSockets [{| state := CLOSED; timeout := None |}]
                 (setNow 5000%N handshaking)).
    exists (streamingFailed rt 0 h0). split; [reflexivity|].
    destruct (streamingFailed_fields rt 0 h0) as (_ & _ & _ & Hsock & Hcases).
    split.
    + rewrite Hsock. reflexivity.
    + destruct Hcases as [(_ & -> & _) | [(_ & _ & -> & _) | (_ & _ & -> & _)]];
        reflexivity.
  - intros late Hlate. rewrite steps_app, steps_connecting. cbn -[N.leb N.add].
    replace (0 + late <=? 5000)%N with false by (symmetry; apply N.leb_gt; lia).
    reflexivity.
  - intros es h Hno Hsteps. cbn in Hsteps.
    assert (ordered h) as Hord.
    { eapply (steps_ordered rt es); [|done..]. reflexivity. }
    unfold ordered in Hord.
    destruct (running h); rewrite ?Hord; try done; unfold chain; by eexists.
Qed.

Lemma streaming_window_witness :
  exists h,
    steps {| mediaRecorder := RecorderWorks; speechRecognition := RecognitionWorks |}
      (connecting ++ [Elapse 4000; SocketOpen 0]) initial = Some h
    /\ attempts h = [deepgram].
Proof.
  destruct (streaming_window
              {| mediaRecorder := RecorderWorks; speechRecognition := RecognitionWorks |}
              4000%N eq_refl) as [(h & Hsteps & _ & _ & Hatt & _) _].
  exists h. split; [exact Hsteps | exact Hatt].
Defined.

(** C8: when neither the batch nor the local provider can start and the
    streaming provider fails (by its configuration, by a transport error
    within the window, or by the 5000 ms timer), all three providers have
    been attempted, [onError] is called once, with the exhaustion message,
    while [isRecording] is false; and for the rest of the session (any
    further turns short of a new [startRecording]) [isRecording] stays
    false and that call remains the only one made to [onError]. *)
Theorem all_providers_fail (rt : runtime) (c : config) (ms : N) (es : list event) :
  mediaRecorder rt <> RecorderWorks ->
  speechRecognition rt <> RecognitionWorks ->
  c <> ConfigReady ->
  (ms <= 5000)%N ->
  es ∈ [ [ConfigArrives c];
         [ConfigArrives ConfigReady; Elapse ms; SocketError 0];
         [ConfigArrives ConfigReady; Elapse 5000; Timeout 0] ] ->
  exists h,
    steps rt ([StartRecording; MicrophoneGranted] ++ es) initial = Some h
    /\ calls h = [{| what := OnError exhausted; isRecordingThen := false |}]
    /\ isRecording h = false
    /\ attempts h = chain
    /\ forall es' h', StartRecording ∉ es' -> steps rt es' h = Some h' ->
         isRecording h' = false /\ errors h' = [exhausted].
Proof.
  intros Hrec Hrecog Hc Hms Hes.
  assert (forall h0 : hook,
            running h0 = AwaitConfig 0 \/ running h0 = AwaitHandshake 0 0 ->
            calls h0 = [] -> isRecording h0 = false -> attempts h0 = [deepgram] ->
            recognitions h0 = 0 ->
            let h := streamingFailed rt 0 h0 in
            calls h = [{| what := OnError exhausted; isRecordingThen := false |}]
            /\ isRecording h = false /\ attempts h = chain
            /\ forall es' h', StartRecording ∉ es' -> steps rt es' h = Some h' ->
                 isRecording h' = false /\ errors h' = [exhausted]) as Hfail.
  { intros h0 _ Hcalls Hrecording Hatt Hzero h.
    destruct (streamingFailed_fields rt 0 h0) as (Hrun & _ & _ & _ & Hcases).
    destruct Hcases as [(? & _) | [(_ & ? & _) | (_ & _ & Ha & _ & _ & Hcl & _ & Hi & Hg)]];
      [done | done |].
    fold h in Hrun, Ha, Hcl, Hi, Hg.
    rewrite Hcalls, Hrecording in Hcl. rewrite Hatt in Ha.
    split_and!; [done | congruence | done |].
    intros es' h' Hno Hsteps.
    destruct (steps_idle rt es' h h' Hrun Hno Hsteps) as (_ & _ & _ & Hi' & He').
    split; [apply Hi'; congruence|].
    rewrite He' by congruence. unfold errors. by rewrite Hcl. }
  rewrite !elem_of_cons in Hes.
  destruct Hes as [-> | [-> | [-> | Hnil]]]; [| | |by apply elem_of_nil in Hnil].
  - exists (streamingFailed rt 0 granted).
    split; [by destruct c | apply Hfail; [by left | done..]].
  - exists (streamingFailed rt 0
              (setSockets [{| state := CLOSED; timeout := None |}]
                 (setNow ms handshaking))).
    split; [|apply Hfail; [by right | done..]].
    change ([StartRecording; MicrophoneGranted]
            ++ [ConfigArrives ConfigReady; Elapse ms; SocketError 0])%list
      with (connecting ++ [Elapse ms; SocketError 0])%list.
    rewrite steps_app, steps_connecting. cbn -[N.leb N.add handshaking].
    rewrite !N.add_0_l. change (deadlines handshaking) with [5000%N].
    cbn -[N.leb handshaking].
    replace (ms <=? 5000)%N with true by (symmetry; apply N.leb_le; lia).
    reflexivity.
  - exists (streamingFailed rt 0
              (setSockets [{| state := CLOSED; timeout := None |}]
                 (setNow 5000%N handshaking))).
    split; [reflexivity | apply Hfail; [by right | done..]].
Qed.

Lemma all_providers_fail_witness :
  exists h,
    steps {| mediaRecorder := RecorderConstructorThrows;
             speechRecognition := RecognitionAbsent |}
      [StartRecording; MicrophoneGranted; ConfigArrives ConfigReady;
       Elapse 5000; Timeout 0] initial = Some h
    /\ calls h = [{| what := OnError exhausted; isRecordingThen := false |}].
Proof.
  destruct (all_providers_fail
              {| mediaRecorder := RecorderConstructorThrows;
                 speechRecognition := RecognitionAbsent |}
              ConfigNotOk 0%N
              [ConfigArrives ConfigReady; Elapse 5000; Timeout 0])
    as (h & Hsteps & Hcalls & _).
  - discriminate.
  - discriminate.
  - discriminate.
  - discriminate.
  - apply list_elem_of_further, list_elem_of_further, list_elem_of_here.
  - exists h. split; [exact Hsteps | exact Hcalls].
Defined.

(** *** Stopping while the handshake is in flight *)

Lemma stopRecording_sockets (h : hook) :
  sockets (stopRecording h)
  = match socketRef h with
    | Some j => alter (fun s => {| state := CLOSED; timeout := timeout s |}) j (sockets h)
    | None => sockets h
    end.
Proof.
  unfold stopRecording.
  repeat case_match; cbn -[insert alter lookup] in *; simplify_eq; done.
Qed.

(** C3 as stated fails: [stopRecording] during the handshake leaves the
    socket connecting, since [socketRef] is only set by [onopen]; when the
    handshake then completes, the session becomes active. *)
Lemma stop_while_connecting_not_cancelled :
  let rt := {| mediaRecorder := RecorderWorks; speechRecognition := RecognitionWorks |} in
  exists h1 h2,
    steps rt (connecting ++ [StopRecording]) initial = Some h1
    /\ running h1 = AwaitHandshake 0 0
    /\ state <$> sockets h1 !! 0 = Some CONNECTING
    /\ steps rt [SocketOpen 0] h1 = Some h2
    /\ isRecording h2 = true
    /\ provider h2 = Some deepgram.
Proof. cbn zeta. do 2 eexists. split_and!; vm_compute; reflexivity. Qed.

(** C3, amended: [stopRecording] called while the streaming handshake is in
    flight does not throw and, within that turn, releases the microphone
    stream and resets [isRecording] and [provider]; it does not close the
    connecting socket nor disarm its timer, and the attempt stays in flight:
    if the socket then opens, the session becomes active with that socket in
    [socketRef], and a second [stopRecording] closes it. *)
Theorem stopRecording_while_connecting (rt : runtime) (h : hook)
    (stream k : nat) (due : N) :
  running h = AwaitHandshake stream k ->
  sockets h !! k = Some {| state := CONNECTING; timeout := Some due |} ->
  streamRef h = Some stream ->
  socketRef h <> Some k ->
  let h' := stopRecording h in
  step rt StopRecording h = Some h'
  /\ streams h' = <[stream := false]> (streams h)
  /\ streamRef h' = None /\ isRecording h' = false /\ provider h' = None
  /\ sockets h' !! k = Some {| state := CONNECTING; timeout := Some due |}
  /\ running h' = AwaitHandshake stream k
  /\ exists h'',
       step rt (SocketOpen k) h' = Some h''
       /\ isRecording h'' = true /\ provider h'' = Some deepgram
       /\ socketRef h'' = Some k /\ running h'' = NotRunning
       /\ state <$> sockets (stopRecording h'') !! k = Some CLOSED
       /\ isRecording (stopRecording h'') = false.
Proof.
  intros Hrun Hsock Href Hsref h'. subst h'.
  destruct (stopRecording_keeps h) as (Hr & _ & _ & _ & Hi & Hp & Hs & _).
  pose proof (stopRecording_stream h) as Hst. rewrite Href in Hst.
  destruct Hst as [Hstreams _].
  assert (sockets (stopRecording h) !! k
          = Some {| state := CONNECTING; timeout := Some due |}) as Hsock'.
  { rewrite stopRecording_sockets.
    destruct (socketRef h) as [j|]; [|done].
    rewrite list_lookup_alter_ne by congruence. done. }
  split_and!; try done; [by rewrite Hr|].
  set (h' := stopRecording h) in *.
  set (opened := setProvider (Some deepgram)
                   (setSocketRef (Some k)
                      (setSockets (<[k := {| state := OPEN; timeout := None |}]>
                                     (sockets h')) h'))).
  exists (streamingViable opened).
  assert (step rt (SocketOpen k) h' = Some (streamingViable opened)) as Hopen.
  { unfold step. rewrite Hsock'. unfold resolve.
    change (running (setProvider _ _)) with (running h').
    rewrite Hr, Hrun. by rewrite bool_decide_eq_true_2. }
  split_and!; try done.
  - rewrite stopRecording_sockets.
    change (socketRef (streamingViable opened)) with (Some k).
    change (sockets (streamingViable opened))
      with (<[k := {| state := OPEN; timeout := None |}]> (sockets h')).
    cbv beta iota.
    rewrite list_lookup_alter_eq, list_lookup_insert_eq; [done|].
    by eapply lookup_lt_Some.
Qed.

Lemma stopRecording_while_connecting_witness :
  streams (stopRecording handshaking) = [false]
  /\ sockets (stopRecording handshaking) !! 0
     = Some {| state := CONNECTING; timeout := Some 5000%N |}.
Proof.
  destruct (stopRecording_while_connecting
              {| mediaRecorder := RecorderWorks; speechRecognition := RecognitionWorks |}
              handshaking 0 0 5000%N)
    as (_ & Hstreams & _ & _ & _ & Hsock & _).
  - reflexivity.
  - reflexivity.
  - reflexivity.
  - discriminate.
  - split; [exact Hstreams | exact Hsock].
Defined.

(** *** The microphone stream over a session *)

Lemma existsb_isGranted (es : list event) :
  existsb isGranted es = true <-> MicrophoneGranted ∈ es.
Proof.
  rewrite existsb_exists. split.
  - intros (e & Hin & He). destruct e; try discriminate.
    by apply list_elem_of_In.
  - intros Hin. exists MicrophoneGranted. split; [by apply list_elem_of_In | done].
Qed.

(** C6 as stated fails: when the microphone is refused no provider is
    attempted, and the session has no acquisition and no release instead of
    one of each. *)
Lemma denied_session_acquires_nothing :
  exists h,
    steps {| mediaRecorder := RecorderWorks; speechRecognition := RecognitionWorks |}
      [StartRecording; MicrophoneDenied] initial = Some h
    /\ attempts h = []
    /\ length (streams h) = 0
    /\ trackStops h = 0
    /\ length (streams h) <> 1.
Proof. eexists. split; [reflexivity|]. split_and!; try reflexivity. discriminate. Qed.

(** C6, amended: in a session (one [startRecording] on a fresh hook,
    followed by any turns) whose microphone request is granted, exactly one
    stream is acquired; it is already ended when the chain is exhausted and
    when the local provider is the active one, and it is ended once
    [stopRecording] has run, whatever the state of the session then is; its
    tracks are stopped once or twice in all. In a session whose request is
    not granted, no stream is acquired and none is released. *)
Theorem microphone_released (rt : runtime) (es : list event) (h : hook) :
  StartRecording ∉ es ->
  steps rt (StartRecording :: es) initial = Some h ->
  (MicrophoneGranted ∉ es ->
     streams h = [] /\ trackStops h = 0
     /\ streams (stopRecording h) = [] /\ trackStops (stopRecording h) = 0)
  /\ (MicrophoneGranted ∈ es ->
        length (streams h) = 1
        /\ (exhausted ∈ errors h -> streams h = [false])
        /\ (provider h = Some webspeech -> streams h = [false])
        /\ streams (stopRecording h) = [false]
        /\ 1 <= trackStops (stopRecording h) <= 2).
Proof.
  intros Hno Hsteps. cbn in Hsteps.
  assert (owned (existsb isGranted es) h) as Hown.
  { apply (steps_owned rt false es
             (setRunning AwaitMicrophone (setIsConnecting true initial)));
      [|done..].
    cbn. split_and!; try done; [by left | by intros ?%elem_of_nil]. }
  pose proof (stopRecording_owned _ h Hown) as Hstop.
  destruct (stopRecording_keeps h) as (_ & _ & _ & _ & _ & _ & Href & _).
  split; intros Hg.
  - assert (existsb isGranted es = false) as Hb.
    { destruct (existsb isGranted es) eqn:Hb; [|done].
      by apply existsb_isGranted in Hb. }
    rewrite Hb in Hown, Hstop.
    destruct Hown as (? & _ & ? & _). destruct Hstop as (? & _ & ? & _). done.
  - apply existsb_isGranted in Hg. rewrite Hg in Hown, Hstop.
    destruct Hown as (live & Hl & _ & _ & _ & _ & _ & _ & Hex & Hws).
    destruct Hstop as (live' & Hl' & _ & _ & _ & Hlive' & Hdead' & Hb' & _).
    assert (live' = false) as ->.
    { destruct live'; [|done]. destruct Hlive' as [? _]; congruence. }
    rewrite Hl, Hl'. split_and!; try done.
    + intros Hin. by rewrite (Hex Hin).
    + intros Hp. by rewrite (Hws Hp).
    + by apply Hdead'.
    + rewrite Href in Hb'. unfold holds in Hb'.
      destruct (runStream (running (stopRecording h))); lia.
Qed.

Lemma microphone_released_witness :
  exists h,
    steps {| mediaRecorder := RecorderConstructorThrows;
             speechRecognition := RecognitionWorks |}
      [StartRecording; MicrophoneGranted; ConfigArrives ConfigNotOk] initial = Some h
    /\ streams (stopRecording h) = [false].
Proof.
  eexists. split; [reflexivity|].
  eapply (microphone_released
            {| mediaRecorder := RecorderConstructorThrows;
               speechRecognition := RecognitionWorks |}
            [MicrophoneGranted; ConfigArrives ConfigNotOk]).
  - intros Hin. repeat (apply elem_of_cons in Hin as [Hin|Hin]; [discriminate|]).
    by apply elem_of_nil in Hin.
  - reflexivity.
  - apply list_elem_of_here.
Defined.

(** *** Viability of the batch provider *)

(** [startAssemblyAI] answers by the recorder alone and posts nothing. *)
Lemma startAssemblyAI_viable (rt : runtime) (h : hook) :
  ((startAssemblyAI rt h).1 = true <-> mediaRecorder rt = RecorderWorks)
  /\ requests (startAssemblyAI rt h).2 = requests h.
Proof.
  unfold startAssemblyAI. destruct (mediaRecorder rt); cbn; split; try done.
Qed.

(** C2, with the batch credentials missing and the streaming provider not
    configured: the route answers every submission with status 500, yet
    [startAssemblyAI] has reported the provider viable before any submission
    was made; [isRecording] is set, and after the first submission has
    failed the batch provider is still the active one, the local provider
    has not been attempted and nothing was passed to the caller. *)
Theorem batch_viable_without_round_trip :
  let rt := {| mediaRecorder := RecorderWorks; speechRecognition := RecognitionWorks |} in
  let clip := [{| Chunker.size := 20000 |}] in
  let answer := Route.POST None (Some {| Chunker.size := 20000 |})
                  (Route.TranscribeText (Some "hello")) in
  answer = Chunker.Response false (Chunker.Json None)
  /\ exists h h',
       steps rt [StartRecording; MicrophoneGranted; ConfigArrives ConfigNotOk] initial
       = Some h
       /\ isRecording h = true /\ provider h = Some assemblyai
       /\ requests h = []
       /\ steps rt [DataAvailable 0 {| Chunker.size := 20000 |}; Elapse 3000;
                    Tick 0; Reply 0 answer] h = Some h'
       /\ requests h' = [{| clip := clip; pending := false |}]
       /\ isRecording h' = true /\ provider h' = Some assemblyai
       /\ attempts h' = [deepgram; assemblyai]
       /\ calls h' = []
       /\ audioChunksRef h' = clip.
Proof.
  cbn zeta. split; [reflexivity|].
  do 2 eexists. split_and!; vm_compute; reflexivity.
Qed.

(** * Further properties of the code *)

(** ** Streaming transcoder: order and symmetry *)

Section TruncateSymmetry.

Local Open Scope Q_scope.

Lemma truncate_comp (x y : Q) : x == y -> Pcm.truncate x = Pcm.truncate y.
Proof.
  intros Hxy. unfold Pcm.truncate, Qceiling.
  assert (Qle_bool 0 x = Qle_bool 0 y) as ->.
  { destruct (Qle_bool 0 x) eqn:Hx, (Qle_bool 0 y) eqn:Hy; try reflexivity.
    - apply Qle_bool_iff in Hx. rewrite Hxy in Hx. apply Qle_bool_iff in Hx. congruence.
    - apply Qle_bool_iff in Hy. rewrite <- Hxy in Hy. apply Qle_bool_iff in Hy. congruence. }
  destruct (Qle_bool 0 y); [by apply Qfloor_comp|].
  f_equal. apply Qfloor_comp. by rewrite Hxy.
Qed.

Lemma truncate_opp (x : Q) : Pcm.truncate (- x) = (- Pcm.truncate x)%Z.
Proof.
  unfold Pcm.truncate.
  destruct (Qle_bool 0 x) eqn:Hx, (Qle_bool 0 (- x)) eqn:Hn.
  - apply Qle_bool_iff in Hx, Hn.
    assert (x == 0) as H0.
    { apply Qle_antisym; [|done]. apply Qopp_le_compat in Hn.
      by rewrite Qopp_involutive in Hn. }
    rewrite (Qfloor_comp _ _ H0).
    assert (- x == 0) as H1 by (by rewrite H0).
    rewrite (Qfloor_comp _ _ H1). reflexivity.
  - unfold Qceiling. by rewrite (Qfloor_comp _ _ (Qopp_involutive x)).
  - unfold Qceiling. lia.
  - exfalso.
    assert (~ 0 <= x) as Hx' by (rewrite <- Qle_bool_iff; congruence).
    assert (~ 0 <= - x) as Hn' by (rewrite <- Qle_bool_iff; congruence).
    apply Qnot_le_lt, Qlt_le_weak, Qopp_le_compat in Hx'. by apply Hn'.
Qed.

End TruncateSymmetry.

(** X1: the conversion preserves the order of the samples: of two samples
    (the infinities included, NaN excluded) the greater never converts to
    the smaller value. *)
Theorem sample_monotone (x y : Pcm.float) :
  x <> Pcm.NaN -> y <> Pcm.NaN -> Pcm.leb x y = true ->
  (Pcm.sample x <= Pcm.sample y)%Z.
Proof.
  intros Hx Hy Hle.
  pose proof (sample_int16 x) as [Hx1 Hx2]. pose proof (sample_int16 y) as [Hy1 Hy2].
  destruct x as [|[]|p]; [done| | |].
  - change (Pcm.sample (Pcm.Inf true)) with (-32768)%Z. lia.
  - destruct y as [|[]|q]; [done|discriminate| |discriminate].
    change (Pcm.sample (Pcm.Inf false)) with 32767%Z. lia.
  - destruct y as [|[]|q]; [done|discriminate| |].
    + change (Pcm.sample (Pcm.Inf false)) with 32767%Z. lia.
    + rewrite !sample_clamps. cbn in Hle. apply Qle_bool_iff in Hle.
      assert (p * 32768 <= q * 32768)%Q as Hm
        by (apply Qmult_le_compat_r; [done | discriminate]).
      apply truncate_mono in Hm. lia.
Qed.

Lemma sample_monotone_witness :
  (Pcm.sample (Pcm.Fin (1 # 4)) <= Pcm.sample (Pcm.Fin (1 # 2)))%Z.
Proof.
  apply (sample_monotone (Pcm.Fin (1 # 4)) (Pcm.Fin (1 # 2)));
    [discriminate | discriminate | reflexivity].
Defined.

(** X2: strictly inside (-1, 1) the conversion is the truncated product
    itself and is odd: a sample and its opposite convert to opposite values.
    At the two ends it is not: -1 gives -32768 and +1 gives 32767. *)
Theorem sample_odd (q : Q) :
  (-1 < q)%Q -> (q < 1)%Q ->
  Pcm.sample (Pcm.Fin q) = Pcm.truncate (q * 32768)
  /\ Pcm.sample (Pcm.Fin (- q)) = (- Pcm.sample (Pcm.Fin q))%Z
  /\ Pcm.sample (Pcm.Fin (- 1)) <> (- Pcm.sample (Pcm.Fin 1))%Z.
Proof.
  intros Hlo Hhi.
  assert (-32767 <= Pcm.truncate (q * 32768) <= 32767)%Z as Hb.
  { split.
    - assert (-32768 <= q * 32768)%Q as H by
          (apply Qlt_le_weak in Hlo;
           apply (Qmult_le_compat_r _ _ 32768) in Hlo; [done | discriminate]).
      destruct (Qle_bool 0 (q * 32768)) eqn:Hs.
      + apply Qle_bool_iff, truncate_mono in Hs.
        change (Pcm.truncate 0) with 0%Z in Hs. lia.
      + unfold Pcm.truncate. rewrite Hs.
        pose proof (Qceiling_lt (q * 32768)) as Hc.
        assert (-32768 < q * 32768)%Q as Hq
          by (apply (Qmult_lt_compat_r _ _ 32768) in Hlo; [done | reflexivity]).
        destruct (Z_lt_le_dec (Qceiling (q * 32768)) (-32767)) as [Hlt|]; [|lia].
        exfalso. assert (Qceiling (q * 32768) <= -32768)%Z as Hle by lia.
        rewrite Zle_Qle in Hle. apply (Qlt_irrefl (q * 32768)).
        eapply Qle_lt_trans; [apply Qle_ceiling|].
        eapply Qle_lt_trans; [exact Hle | exact Hq].
    - assert (q * 32768 < 32768)%Q as Hq
        by (apply (Qmult_lt_compat_r _ _ 32768) in Hhi; [done | reflexivity]).
      destruct (Qle_bool 0 (q * 32768)) eqn:Hs.
      + unfold Pcm.truncate. rewrite Hs.
        destruct (Z_lt_le_dec 32767 (Qfloor (q * 32768))) as [Hlt|]; [|lia].
        exfalso. assert (32768 <= Qfloor (q * 32768))%Z as Hle by lia.
        rewrite Zle_Qle in Hle. apply (Qlt_irrefl (q * 32768)).
        eapply Qlt_le_trans; [exact Hq|].
        eapply Qle_trans; [exact Hle | apply Qfloor_le].
      + assert (q * 32768 <= 0)%Q as Hn.
        { apply Qlt_le_weak, Qnot_le_lt. rewrite <- Qle_bool_iff. congruence. }
        apply truncate_mono in Hn. change (Pcm.truncate 0) with 0%Z in Hn. lia. }
  assert (Pcm.sample (Pcm.Fin q) = Pcm.truncate (q * 32768)) as Hs
    by (rewrite sample_clamps; lia).
  split; [exact Hs|]. split; [|vm_compute; discriminate].
  rewrite Hs, sample_clamps.
  assert (- q * 32768 == - (q * 32768))%Q as Heq by ring.
  rewrite (truncate_comp _ _ Heq), truncate_opp. lia.
Qed.

Lemma sample_odd_witness :
  Pcm.sample (Pcm.Fin (- (1 # 2))) = (- Pcm.sample (Pcm.Fin (1 # 2)))%Z.
Proof.
  apply (sample_odd (1 # 2)); reflexivity.
Defined.

(** ** Handlers of the three providers *)

Lemma trimEnd_keeps (c : ascii) (s : string) :
  Js.isWhiteSpace c = false -> Js.truthy (Js.trimEnd (String c s)) = true.
Proof. intros Hc. cbn. destruct (Js.trimEnd s); [by rewrite Hc | done]. Qed.

Lemma trimStart_not_blank (s : string) :
  Js.blank s = false ->
  exists c r, Js.trimStart s = String c r /\ Js.isWhiteSpace c = false.
Proof.
  induction s as [|c s IH]; [discriminate|]. cbn.
  destruct (Js.isWhiteSpace c) eqn:Hc; [exact IH|]. intros _. by exists c, s.
Qed.

Lemma trim_truthy (s : string) : Js.truthy (Js.trim s) = negb (Js.blank s).
Proof.
  destruct (Js.blank s) eqn:Hb.
  - unfold Js.trim. by rewrite trimStart_blank.
  - destruct (trimStart_not_blank s Hb) as (c & r & Heq & Hc).
    unfold Js.trim. rewrite Heq. by apply trimEnd_keeps.
Qed.

(** X3: a message of the streaming provider that is neither of the two
    control events and carries a transcript is forwarded if and only if the
    transcript is not blank; it is then forwarded once, untrimmed, as final
    exactly when [is_final] is true (an absent flag counts as interim). The
    two control events forward nothing, whatever else they carry. *)
Theorem onmessage_forwards (d : Deepgram.data) (t : string) :
  Deepgram.transcript d = Some t ->
  (Deepgram.type d <> Some "SpeechStarted" ->
   Deepgram.type d <> Some "UtteranceEnd" ->
   Deepgram.onmessage (Some d)
   = if Js.blank t then []
     else [OnTranscript t (default false (Deepgram.is_final d))])
  /\ (Deepgram.type d = Some "SpeechStarted" \/ Deepgram.type d = Some "UtteranceEnd" ->
      Deepgram.onmessage (Some d) = []).
Proof.
  intros Ht. unfold Deepgram.onmessage. rewrite Ht. split.
  - intros H1 H2. rewrite !bool_decide_eq_false_2 by done.
    rewrite trim_truthy. destruct t as [|c t]; [reflexivity|].
    cbn [Js.truthy]. by destruct (Js.blank (String c t)).
  - intros [H|H]; rewrite H; [reflexivity|].
    rewrite bool_decide_eq_false_2 by discriminate. reflexivity.
Qed.

Lemma onmessage_forwards_witness :
  Deepgram.onmessage
    (Some {| Deepgram.type := Some "Results"; Deepgram.transcript := Some " chest pain";
             Deepgram.is_final := None |})
  = [OnTranscript " chest pain" false].
Proof.
  apply (onmessage_forwards
           {| Deepgram.type := Some "Results"; Deepgram.transcript := Some " chest pain";
              Deepgram.is_final := None |} " chest pain" eq_refl);
    discriminate.
Defined.

Lemma append_assoc (a b c : string) : (a +:+ b) +:+ c = a +:+ (b +:+ c).
Proof.
  induction a as [|x a IH]; [reflexivity|].
  change (String x ((a +:+ b) +:+ c) = String x (a +:+ (b +:+ c))). by f_equal.
Qed.

Lemma append_nil_r (a : string) : a +:+ "" = a.
Proof.
  induction a as [|x a IH]; [reflexivity|].
  change (String x (a +:+ "") = String x a). by f_equal.
Qed.

Lemma accumulate_fold (rs : list WebSpeechApi.result) (interim final : string) :
  fold_left WebSpeechApi.accumulate rs (interim, final)
  = (interim +:+ foldr String.append ""
                   (WebSpeechApi.transcript <$>
                    filter (fun r => WebSpeechApi.isFinal r = false) rs),
     final +:+ foldr String.append ""
                 (WebSpeechApi.transcript <$>
                  filter (fun r => WebSpeechApi.isFinal r = true) rs)).
Proof.
  revert interim final. induction rs as [|r rs IH]; intros interim final.
  - cbn. by rewrite !append_nil_r.
  - cbn [fold_left]. unfold WebSpeechApi.accumulate at 2.
    rewrite !filter_cons. destruct (WebSpeechApi.isFinal r) eqn:Hr.
    + rewrite IH. rewrite decide_False by discriminate.
      rewrite decide_True by done. cbn [fmap list_fmap foldr].
      by rewrite append_assoc.
    + rewrite IH. rewrite decide_True by done.
      rewrite decide_False by discriminate. cbn [fmap list_fmap foldr].
      by rewrite append_assoc.
Qed.

(** X4: a result event of the local recogniser is forwarded as at most two
    callbacks, in this order: the concatenation of the transcripts of its
    interim results, as interim, and the concatenation of the transcripts of
    its final results, as final; each is left out when empty, and the
    results before [resultIndex] take no part. *)
Theorem onresult_concatenates (e : WebSpeechApi.resultEvent) :
  let rs := drop (WebSpeechApi.resultIndex e) (WebSpeechApi.results e) in
  let interim := foldr String.append ""
                   (WebSpeechApi.transcript <$>
                    filter (fun r => WebSpeechApi.isFinal r = false) rs) in
  let final := foldr String.append ""
                 (WebSpeechApi.transcript <$>
                  filter (fun r => WebSpeechApi.isFinal r = true) rs) in
  WebSpeechApi.onresult e
  = ((if Js.truthy interim then [OnTranscript interim false] else [])
     ++ (if Js.truthy final then [OnTranscript final true] else []))%list.
Proof.
  cbn zeta. unfold WebSpeechApi.onresult. by rewrite accumulate_fold.
Qed.

(** ** Batch chunker: what the accumulator holds *)

Lemma blobSize_app (a b : list Chunker.blob) :
  Chunker.blobSize (a ++ b) = (Chunker.blobSize a + Chunker.blobSize b)%N.
Proof.
  induction a as [|x a IH]; [reflexivity|].
  cbn [app]. unfold Chunker.blobSize in *. cbn [fold_right]. rewrite IH. lia.
Qed.

(** X5: the size of the accumulator grows by exactly the size of each blob
    handed to [ondataavailable] (an empty blob is not stored), so once the
    accumulator is large enough to be flushed it stays so, with the new blob
    at its end, until it is cleared. *)
Theorem ondataavailable_accumulates (audioChunks : list Chunker.blob) (b : Chunker.blob) :
  Chunker.blobSize (Chunker.ondataavailable audioChunks b)
  = (Chunker.blobSize audioChunks + Chunker.size b)%N
  /\ (Chunker.flush audioChunks = Some audioChunks ->
      Chunker.flush (Chunker.ondataavailable audioChunks b)
      = Some (Chunker.ondataavailable audioChunks b))
  /\ (Chunker.size b = 0%N -> Chunker.ondataavailable audioChunks b = audioChunks)
  /\ (Chunker.size b <> 0%N ->
      Chunker.ondataavailable audioChunks b = (audioChunks ++ [b])%list).
Proof.
  assert (Chunker.blobSize (Chunker.ondataavailable audioChunks b)
          = (Chunker.blobSize audioChunks + Chunker.size b)%N) as Hsize.
  { unfold Chunker.ondataavailable. destruct (N.ltb_spec 0 (Chunker.size b)).
    - rewrite blobSize_app. cbn. lia.
    - lia. }
  split_and!; [done| | |].
  - intros Hf. apply flush_iff in Hf. apply flush_iff. lia.
  - intros H0. unfold Chunker.ondataavailable. by rewrite H0.
  - intros H0. unfold Chunker.ondataavailable.
    destruct (N.ltb_spec 0 (Chunker.size b)); [done | lia].
Qed.

(** X6: the batch route and the client's handling of its answer, composed:
    the accumulator is cleared, and a transcript forwarded (as final), only
    when the key is configured, the clip is present and the transcription
    yields a non-empty text; in every other case the accumulator is kept and
    nothing is forwarded. *)
Theorem route_then_onreply (audioChunks : list Chunker.blob) (apiKey : option string)
    (audioFile : option Chunker.blob) (t : Route.transcription) :
  Chunker.onreply audioChunks (Route.POST apiKey audioFile t)
  = match Js.truthy (default "" apiKey), audioFile, t with
    | true, Some _, Route.TranscribeText (Some (String c s)) =>
        ([], [OnTranscript (String c s) true])
    | _, _, _ => (audioChunks, [])
    end.
Proof.
  unfold Route.POST.
  destruct (Js.truthy (default "" apiKey)); [|reflexivity].
  destruct audioFile; [|reflexivity].
  destruct t as [| |[[|c s]|]]; reflexivity.
Qed.

(** ** The routes *)


Lemma lookup_VOICE_MAP (language v : string) :
  Tts.VOICE_MAP !! language = Some v ->
  (language = "en" /\ v = "aura-asteria-en")
  \/ (language ∈ ["es"; "fr"; "de"; "zh"; "hi"; "ar"; "pt"; "ru"; "ja"; "ko"; "vi"]
      /\ v = "aura-stella-en").
Proof.
  unfold Tts.VOICE_MAP.
  rewrite !lookup_insert, lookup_empty.
  repeat (case_decide;
          [subst; intros [= <-];
           first [ by left
                 | right; split; [|done];
                   repeat first [apply list_elem_of_here | apply list_elem_of_further] ]
          |]).
  discriminate.
Qed.

(** X8: the voice chosen for a language that is not the name of an
    inherited member: the first voice for 'en' and for every language the
    table does not list (an absent language included, read as 'undefined'),
    the second voice for the eleven other listed languages; no other voice
    is ever chosen. For an inherited name the read finds that member, and
    what is chosen is that member and not a voice. *)
Theorem voice_chosen (language : string) :
  language ∉ Lang.objectPrototype ->
  Tts.voice language
  = Lang.Str (if bool_decide (language ∈ ["es"; "fr"; "de"; "zh"; "hi"; "ar"; "pt";
                                           "ru"; "ja"; "ko"; "vi"])
              then "aura-stella-en" else "aura-asteria-en")
  /\ Tts.voice "undefined" = Lang.Str "aura-asteria-en"
  /\ Tts.voice "constructor" = Lang.Builtin "constructor".
Proof.
  intros Hproto. split; [|split; vm_compute; reflexivity].
  unfold Tts.voice, Obj.read, Obj.orElse.
  destruct (Tts.VOICE_MAP !! language) as [v|] eqn:Hv.
  - destruct (lookup_VOICE_MAP _ _ Hv) as [[-> ->] | [Hin ->]]; [reflexivity|].
    by rewrite bool_decide_eq_true_2.
  - rewrite (bool_decide_eq_false_2 _ Hproto). cbn.
    rewrite bool_decide_eq_false_2; [reflexivity|].
    intros Hin. rewrite !elem_of_cons in Hin.
    destruct Hin as [->|[->|[->|[->|[->|[->|[->|[->|[->|[->|[->|Hin]]]]]]]]]]];
      try (vm_compute in Hv; discriminate).
    by apply elem_of_nil in Hin.
Qed.

Lemma voice_chosen_witness : Tts.voice "hi" = Lang.Str "aura-stella-en".
Proof.
  apply (voice_chosen "hi").
  intros Hin. unfold Lang.objectPrototype in Hin.
  repeat (apply elem_of_cons in Hin as [Hin|Hin]; [discriminate|]).
  by apply elem_of_nil in Hin.
Defined.

(** X9: the text-to-speech route answers with audio exactly when the key is
    configured, the body parses, its text is non-empty and the speech
    service answers with a 2xx status; the audio is then the service's,
    byte for byte, with its length in decimal as Content-Length. Every other
    answer is a JSON error with status 500, except a missing text with the
    key configured, which is 400; a missing key is reported whatever the
    request. *)
Theorem tts_answers (apiKey : option string) (request : Tts.parsed) (up : Tts.upstream) :
  (forall ct cl body,
     Tts.POST apiKey request up = Tts.Audio ct cl body <->
     Js.truthy (default "" apiKey) = true
     /\ (exists f, request = Tts.Fields f /\ Js.truthy (default "" (Tts.text f)) = true)
     /\ (exists status, up = Tts.Answer status body /\ Tts.isOk status = true)
     /\ ct = "audio/mpeg" /\ cl = pretty (N.of_nat (length body)))
  /\ (forall status error,
        Tts.POST apiKey request up = Tts.Json status error ->
        status = 500%N
        \/ (status = 400%N /\ Js.truthy (default "" apiKey) = true
            /\ exists f, request = Tts.Fields f
                         /\ Js.truthy (default "" (Tts.text f)) = false))
  /\ (Js.truthy (default "" apiKey) = false ->
      Tts.POST apiKey request up = Tts.Json 500 "DEEPGRAM_API_KEY not configured").
Proof.
  unfold Tts.POST. split_and!.
  - intros ct cl body.
    destruct (Js.truthy (default "" apiKey)); cbn [negb];
      [|split; [discriminate | by intros [? _]]].
    destruct request as [m|f]; [split; [discriminate | by intros (_ & (? & ? & _) & _)]|].
    destruct (Js.truthy (default "" (Tts.text f))) eqn:Ht; cbn [negb].
    + destruct up as [m|status audio].
      * split; [discriminate | by intros (_ & _ & (? & ? & _) & _)].
      * destruct (Tts.isOk status) eqn:Hok; cbn [negb].
        -- split.
           ++ intros [= <- <- <-]. split_and!; eauto.
           ++ intros (_ & _ & (st & [= -> ->] & _) & -> & ->). reflexivity.
        -- split; [discriminate|].
           intros (_ & _ & (st & [= -> ->] & Hok') & _). congruence.
    + split; [discriminate|].
      intros (_ & (f' & [= <-] & Ht') & _). congruence.
  - intros status error.
    destruct (Js.truthy (default "" apiKey)); cbn [negb]; [|intros [= <- _]; by left].
    destruct request as [m|f]; [intros [= <- _]; by left|].
    destruct (Js.truthy (default "" (Tts.text f))) eqn:Ht; cbn [negb].
    + destruct up as [m|st audio]; [intros [= <- _]; by left|].
      destruct (Tts.isOk st); cbn [negb]; [discriminate | intros [= <- _]; by left].
    + intros [= <- _]. right. eauto.
  - by intros ->.
Qed.

(** *** Translation *)

Lemma dropLastQuote_snoc (s : string) (q : ascii) :
  Translate.isQuote q = true ->
  Translate.dropLastQuote (s +:+ String q "") = s.
Proof.
  intros Hq. induction s as [|c s IH].
  { change (Translate.dropLastQuote ("" +:+ String q ""))
      with (if Translate.isQuote q then "" else String q ""). by rewrite Hq. }
  change (String c s +:+ String q "") with (String c (s +:+ String q "")).
  remember (s +:+ String q "") as rest eqn:Hrest.
  destruct rest as [|a rest]; [by destruct s|].
  change (Translate.dropLastQuote (String c (String a rest)))
    with (String c (Translate.dropLastQuote (String a rest))).
  by rewrite IH.
Qed.

Lemma trimEnd_snoc (s : string) (c : ascii) :
  Js.isWhiteSpace c = false ->
  Js.trimEnd (s +:+ String c "") = s +:+ String c "".
Proof.
  intros Hc. induction s as [|x s IH].
  { change (Js.trimEnd ("" +:+ String c ""))
      with (if Js.isWhiteSpace c then "" else String c ""). by rewrite Hc. }
  change (String x s +:+ String c "") with (String x (s +:+ String c "")).
  remember (s +:+ String c "") as rest eqn:Hrest.
  change (Js.trimEnd (String x rest))
    with (match Js.trimEnd rest with
          | "" => if Js.isWhiteSpace x then "" else String x ""
          | t => String x t
          end).
  rewrite IH. destruct rest; [by destruct s | reflexivity].
Qed.

Lemma isQuote_not_space (q : ascii) :
  Translate.isQuote q = true -> Js.isWhiteSpace q = false.
Proof.
  unfold Translate.isQuote. intros [H|H]%orb_true_iff;
    apply bool_decide_eq_true in H; by subst.
Qed.

(** X10: the translation route returns the text as it was sent, without
    calling the translation service, when the source and target languages
    are equal (and the request is complete and the key configured); a
    request with a missing or empty field is answered 400 whether or not
    the key is configured. *)
Theorem translate_same_language (text lang : string) (apiKey : option string)
    (c : Translate.chat) :
  text <> "" -> lang <> "" ->
  (Js.truthy (default "" apiKey) = true ->
   Translate.POST
     (Translate.Fields {| Translate.text := Some text;
                          Translate.sourceLang := Some lang;
                          Translate.targetLang := Some lang |}) apiKey c
   = Translate.Translation text)
  /\ (forall f, Translate.text f = None \/ Translate.sourceLang f = None
                \/ Translate.targetLang f = None
                \/ Translate.text f = Some "" ->
        Translate.POST (Translate.Fields f) apiKey c
        = Translate.Error 400 "Missing required fields: text, sourceLang, targetLang").
Proof.
  intros Ht Hl. split.
  - intros Hk. unfold Translate.POST. cbn. rewrite Hk.
    destruct text; [done|]. destruct lang; [done|]. cbn.
    by rewrite bool_decide_eq_true_2.
  - intros f Hf. unfold Translate.POST.
    destruct Hf as [-> | [-> | [-> | ->]]]; cbn; try reflexivity.
    + by rewrite orb_true_r.
    + destruct (Js.truthy (default "" (Translate.text f)));
        destruct (Js.truthy (default "" (Translate.sourceLang f))); reflexivity.
Qed.

Lemma translate_same_language_witness :
  Translate.POST
    (Translate.Fields {| Translate.text := Some "fever"; Translate.sourceLang := Some "en";
                         Translate.targetLang := Some "en" |})
    (Some "key") (Translate.ChatThrows "down")
  = Translate.Translation "fever".
Proof.
  apply (translate_same_language "fever" "en" (Some "key") (Translate.ChatThrows "down"));
    [discriminate | discriminate | reflexivity].
Defined.

(** X11: unwrapping a wrapped answer gives the answer back: for every text
    [s], a translation made of a quote character, [s] and a quote character
    (the two may differ) is cleaned to exactly [s], also when [s] itself
    begins or ends with quotes or blanks; and a translation of blanks only,
    or none at all, is cleaned to the empty text. *)
Theorem clean_unwraps (s : string) (q1 q2 : ascii) :
  Translate.isQuote q1 = true -> Translate.isQuote q2 = true ->
  Translate.stripQuotes (String q1 (s +:+ String q2 "")) = s
  /\ Translate.clean (Some (String q1 (s +:+ String q2 ""))) = s
  /\ (forall apiKey src tgt text,
        Js.truthy (default "" apiKey) = true -> text <> "" -> src <> "" -> tgt <> "" ->
        src <> tgt ->
        Translate.POST
          (Translate.Fields {| Translate.text := Some text;
                               Translate.sourceLang := Some src;
                               Translate.targetLang := Some tgt |}) apiKey
          (Translate.ChatText (Some (String q1 (s +:+ String q2 ""))))
        = Translate.Translation s)
  /\ (forall t, Js.blank t = true -> Translate.clean (Some t) = "")
  /\ Translate.clean None = "".
Proof.
  intros H1 H2.
  assert (Translate.stripQuotes (String q1 (s +:+ String q2 "")) = s) as Hs.
  { cbn [Translate.stripQuotes]. rewrite H1. by apply dropLastQuote_snoc. }
  assert (Translate.clean (Some (String q1 (s +:+ String q2 ""))) = s) as Hc.
  { unfold Translate.clean. cbn [fmap option_fmap option_map default].
    unfold Js.trim. cbn [Js.trimStart]. rewrite (isQuote_not_space q1 H1).
    change (String q1 (s +:+ String q2 "")) with (String q1 s +:+ String q2 "").
    rewrite trimEnd_snoc by (by apply isQuote_not_space). exact Hs. }
  split_and!; [done | done | | | reflexivity].
  - intros apiKey src tgt text Hk Ht Hsrc Htgt Hne.
    unfold Translate.POST. cbn [Translate.text Translate.sourceLang Translate.targetLang default].
    rewrite Hk. destruct text; [done|]. destruct src; [done|]. destruct tgt; [done|].
    cbn [Js.truthy negb orb]. rewrite bool_decide_eq_false_2 by done. by rewrite Hc.
  - intros t Hb. unfold Translate.clean, Js.trim. cbn. by rewrite trimStart_blank.
Qed.

Lemma clean_unwraps_witness :
  Translate.clean (Some "'la fiebre'") = "la fiebre".
Proof.
  apply (clean_unwraps "la fiebre" "'"%char "'"%char); reflexivity.
Defined.

(** ** The hook: stopping *)

Ltac invert_step H :=
  unfold step in H;
  repeat (match type of H with
          | context [match ?x with _ => _ end] => destruct x eqn:?
          end; try discriminate H);
  simplify_eq.

Lemma stopRecording_recorders (h : hook) :
  recorders (stopRecording h)
  = match mediaRecorderRef h with
    | Some r =>
        match recorders h !! r with
        | Some {| recording := true |} =>
            <[r := {| recording := false; transcribeInterval := None |}]> (recorders h)
        | _ => recorders h
        end
    | None => recorders h
    end.
Proof.
  unfold stopRecording.
  repeat case_match; cbn -[insert alter lookup] in *; simplify_eq; done.
Qed.

Lemma stopRecording_mediaRecorderRef (h : hook) :
  mediaRecorderRef (stopRecording h)
  = match mediaRecorderRef h with
    | Some r =>
        match recorders h !! r with
        | Some {| recording := true |} => None
        | _ => Some r
        end
    | None => None
    end.
Proof.
  unfold stopRecording.
  repeat case_match; cbn -[insert alter lookup] in *; simplify_eq; done.
Qed.

Lemma stopRecording_socketRef (h : hook) : socketRef (stopRecording h) = None.
Proof.
  unfold stopRecording.
  repeat case_match; cbn -[insert alter lookup] in *; simplify_eq; done.
Qed.

(** Nothing to stop: the call changes nothing. *)
Lemma stopRecording_noop (h : hook) :
  socketRef h = None -> streamRef h = None ->
  isRecording h = false -> provider h = None ->
  (forall r x, mediaRecorderRef h = Some r -> recorders h !! r = Some x ->
     recording x = false) ->
  stopRecording h = h.
Proof.
  destruct h as [ir ic pr mr ac sr st ru nw ss sk rc rg rq at_ ts cl].
  cbn. intros -> -> -> -> Hrec. unfold stopRecording. cbn -[lookup].
  destruct mr as [r|]; [|reflexivity].
  destruct (rc !! r) as [[[] iv]|] eqn:Hr; [|reflexivity..].
  by specialize (Hrec r _ eq_refl Hr).
Qed.

(** X12: [stopRecording] is idempotent: a second call changes nothing, so
    it is safe to call in any state, an idle hook included. *)
Theorem stopRecording_idempotent (h : hook) :
  stopRecording (stopRecording h) = stopRecording h.
Proof.
  destruct (stopRecording_keeps h) as (_ & _ & _ & _ & Hi & Hp & Hs & _).
  apply stopRecording_noop; try done.
  - apply stopRecording_socketRef.
  - intros r x. rewrite stopRecording_mediaRecorderRef, stopRecording_recorders.
    destruct (mediaRecorderRef h) as [r0|]; [|discriminate].
    destruct (recorders h !! r0) as [[[] iv]|] eqn:Hr0; [discriminate|..];
      intros [= <-] Hx; rewrite Hr0 in Hx; by simplify_eq.
Qed.


(** X14: [stopRecording] does not stop the local recogniser, which no ref
    holds: a result event that arrives after [stopRecording] is still
    forwarded to [onTranscript], with [isRecording] false. *)
Theorem recognition_outlives_stop (rt : runtime) (h : hook) (e : WebSpeechApi.resultEvent) :
  0 < recognitions h ->
  exists h',
    step rt (RecognitionResult e) (stopRecording h) = Some h'
    /\ calls h'
       = (calls h ++ map (fun c => {| what := c; isRecordingThen := false |})
                         (WebSpeechApi.onresult e))%list.
Proof.
  intros Hrec.
  destruct (stopRecording_keeps h) as (_ & _ & Hc & Hg & Hi & _).
  exists (emit (WebSpeechApi.onresult e) (stopRecording h)). split.
  - unfold step. rewrite Hg.
    destruct (Nat.ltb_spec 0 (recognitions h)); [reflexivity | lia].
  - unfold emit. cbn [calls setCalls]. by rewrite Hc, Hi.
Qed.

Lemma recognition_outlives_stop_witness :
  exists h',
    step {| mediaRecorder := RecorderWorks; speechRecognition := RecognitionWorks |}
      (RecognitionResult
         {| WebSpeechApi.resultIndex := 0;
            WebSpeechApi.results :=
              [{| WebSpeechApi.transcript := "fever"; WebSpeechApi.isFinal := true |}] |})
      (stopRecording (setRecognitions 1 initial)) = Some h'
    /\ calls h' = [{| what := OnTranscript "fever" true; isRecordingThen := false |}].
Proof.
  apply (recognition_outlives_stop
           {| mediaRecorder := RecorderWorks; speechRecognition := RecognitionWorks |}
           (setRecognitions 1 initial)).
  cbn. lia.
Defined.

(** X15: when [mediaRecorder.start] throws, the interval armed just before
    it is never cleared: the recorder is inactive, so [stopRecording] skips
    it and leaves both the ref and the armed interval in place. *)
Theorem interval_survives_failed_start (rt : runtime) (stream : nat) (h : hook) :
  mediaRecorder rt = RecorderStartThrows ->
  let h' := stopRecording (streamingFailed rt stream h) in
  mediaRecorderRef h' = Some (length (recorders h))
  /\ recorders h' !! length (recorders h)
     = Some {| recording := false; transcribeInterval := Some (now h + 3000)%N |}.
Proof.
  intros Hrt h'. subst h'.
  set (h1 := streamingFailed rt stream h).
  assert (mediaRecorderRef h1 = Some (length (recorders h))
          /\ recorders h1
             = (recorders h ++ [{| recording := false;
                                   transcribeInterval := Some (now h + 3000)%N |}])%list)
    as [Href Hrec].
  { unfold h1, streamingFailed, startAssemblyAI, startWebSpeech. rewrite Hrt.
    destruct (speechRecognition rt); cbn; done. }
  assert (recorders h1 !! length (recorders h)
          = Some {| recording := false; transcribeInterval := Some (now h + 3000)%N |})
    as Hlook.
  { rewrite Hrec. rewrite lookup_app_r by lia. by rewrite Nat.sub_diag. }
  split.
  - by rewrite stopRecording_mediaRecorderRef, Href, Hlook.
  - rewrite stopRecording_recorders, Href, Hlook. exact Hlook.
Qed.

Lemma interval_survives_failed_start_witness :
  recorders (stopRecording
               (streamingFailed
                  {| mediaRecorder := RecorderStartThrows;
                     speechRecognition := RecognitionAbsent |} 0 granted)) !! 0
  = Some {| recording := false; transcribeInterval := Some 3000%N |}.
Proof.
  apply (interval_survives_failed_start
           {| mediaRecorder := RecorderStartThrows;
              speechRecognition := RecognitionAbsent |} 0 granted).
  reflexivity.
Defined.

(** ** The hook: an active session *)

(** X16: when the transport of an active streaming session drops (close or
    error on the open socket, no [startRecording] in flight), the socket is
    closed and nothing else happens: [isRecording] and [provider] keep
    their values, the microphone stream is untouched, no provider is
    attempted and the caller is told nothing. *)
Theorem transport_drop_is_silent (rt : runtime) (h h' : hook) (k : nat) (e : event) :
  running h = NotRunning ->
  e = SocketClose k \/ e = SocketError k ->
  step rt e h = Some h' ->
  state <$> sockets h' !! k = Some CLOSED
  /\ isRecording h' = isRecording h /\ provider h' = provider h
  /\ streams h' = streams h /\ streamRef h' = streamRef h
  /\ attempts h' = attempts h /\ calls h' = calls h.
Proof.
  intros Hrun [-> | ->] Hstep; invert_step Hstep.
  all: unfold resolve; cbn -[insert lookup]; rewrite ?Hrun; cbn -[insert lookup].
  all: split_and!; try reflexivity.
  all: rewrite list_lookup_insert_eq by (by eapply lookup_lt_Some); reflexivity.
Qed.

Lemma transport_drop_is_silent_witness :
  step {| mediaRecorder := RecorderWorks; speechRecognition := RecognitionWorks |}
    (SocketClose 0) Resources.streaming
  = Some (setSockets [{| state := CLOSED; timeout := None |}] Resources.streaming)
  /\ isRecording (setSockets [{| state := CLOSED; timeout := None |}] Resources.streaming)
     = isRecording Resources.streaming.
Proof.
  split; [reflexivity|].
  destruct (transport_drop_is_silent
              {| mediaRecorder := RecorderWorks; speechRecognition := RecognitionWorks |}
              Resources.streaming
              (setSockets [{| state := CLOSED; timeout := None |}] Resources.streaming)
              0 (SocketClose 0))
    as (_ & Hi & _);
    [reflexivity | left; reflexivity | reflexivity |].
  exact Hi.
Defined.

(** X17: audio that arrives while a submission is in flight is lost when
    that submission succeeds: the reply clears the whole accumulator, the
    new blob included, although no request has carried it. *)
Theorem audio_lost_on_reply (rt : runtime) (h : hook) (r q : nat) (x : recorder)
    (c : list Chunker.blob) (b : Chunker.blob) (t : string) :
  recorders h !! r = Some x -> recording x = true ->
  requests h !! q = Some {| clip := c; pending := true |} ->
  Chunker.size b <> 0%N -> t <> "" ->
  exists h1 h2,
    step rt (DataAvailable r b) h = Some h1
    /\ audioChunksRef h1 = (audioChunksRef h ++ [b])%list
    /\ step rt (Reply q (Chunker.Response true (Chunker.Json (Some t)))) h1 = Some h2
    /\ audioChunksRef h2 = []
    /\ clip <$> requests h2 = clip <$> requests h
    /\ calls h2 = (calls h ++ [{| what := OnTranscript t true;
                                  isRecordingThen := isRecording h |}])%list.
Proof.
  intros Hr Hon Hq Hb Ht. destruct x as [on iv]. cbn in Hon. subst on.
  assert (Chunker.ondataavailable (audioChunksRef h) b = (audioChunksRef h ++ [b])%list)
    as Hpush.
  { unfold Chunker.ondataavailable.
    destruct (N.ltb_spec 0 (Chunker.size b)); [done | lia]. }
  set (h1 := setAudioChunksRef (Chunker.ondataavailable (audioChunksRef h) b) h).
  exists h1.
  exists (setAudioChunksRef []
            (emit [OnTranscript t true]
               (setRequests (<[q := {| clip := c; pending := false |}]> (requests h1)) h1))).
  split; [unfold step; by rewrite Hr|].
  split; [exact Hpush|].
  split.
  - unfold step. change (requests h1) with (requests h). rewrite Hq.
    unfold Chunker.onreply. destruct t; [done|]. reflexivity.
  - cbn -[insert]. split_and!; try reflexivity.
    rewrite list_fmap_insert. cbn. apply list_insert_id.
    rewrite list_lookup_fmap, Hq. reflexivity.
Qed.

Lemma audio_lost_on_reply_witness :
  exists h1 h2,
    step {| mediaRecorder := RecorderWorks; speechRecognition := RecognitionWorks |}
      (DataAvailable 0 {| Chunker.size := 5 |})
      (setRequests [{| clip := []; pending := true |}]
         (setRecorders [{| recording := true; transcribeInterval := None |}] initial))
    = Some h1
    /\ step {| mediaRecorder := RecorderWorks; speechRecognition := RecognitionWorks |}
         (Reply 0 (Chunker.Response true (Chunker.Json (Some "ok")))) h1 = Some h2
    /\ audioChunksRef h2 = [].
Proof.
  destruct (audio_lost_on_reply
              {| mediaRecorder := RecorderWorks; speechRecognition := RecognitionWorks |}
              (setRequests [{| clip := []; pending := true |}]
                 (setRecorders [{| recording := true; transcribeInterval := None |}] initial))
              0 0 {| recording := true; transcribeInterval := None |} []
              {| Chunker.size := 5 |} "ok")
    as (h1 & h2 & H1 & _ & H2 & H3 & _);
    [reflexivity | reflexivity | reflexivity | discriminate | discriminate |].
  exists h1, h2. split; [exact H1|]. split; [exact H2 | exact H3].
Defined.

(** X18: a tick of the interval posts the whole accumulator and leaves it in
    place, without regard to the requests still pending: while no reply has
    cleared the accumulator, every tick posts again the audio of the ticks
    before. In a session on the batch provider, two ticks without a reply
    in between post the same blob twice. *)
Theorem tick_resubmits (rt : runtime) (h : hook) (r : nat) (on : bool) (due : N) :
  recorders h !! r = Some {| recording := on; transcribeInterval := Some due |} ->
  (due <= now h)%N ->
  (10000 < Chunker.blobSize (audioChunksRef h))%N ->
  (exists h',
     step rt (Tick r) h = Some h'
     /\ requests h'
        = (requests h ++ [{| clip := audioChunksRef h; pending := true |}])%list
     /\ audioChunksRef h' = audioChunksRef h
     /\ recorders h' !! r
        = Some {| recording := on; transcribeInterval := Some (due + 3000)%N |})
  /\ (forall b,
        mediaRecorder rt = RecorderWorks -> (10000 < Chunker.size b)%N ->
        requests <$>
          steps rt [StartRecording; MicrophoneGranted; ConfigArrives ConfigNotOk;
                    DataAvailable 0 b; Elapse 3000; Tick 0; Elapse 3000; Tick 0] initial
        = Some [{| clip := [b]; pending := true |}; {| clip := [b]; pending := true |}]).
Proof.
  intros Hr Hdue Hsize. split.
  - apply flush_iff in Hsize.
    eexists. split.
    + unfold step. rewrite Hr.
      replace (due <=? now h)%N with true by (symmetry; apply N.leb_le; lia).
      cbn -[insert lookup Chunker.flush]. rewrite Hsize. reflexivity.
    + cbn -[insert lookup]. split_and!; try reflexivity.
      apply list_lookup_insert_eq. by eapply lookup_lt_Some.
  - intros b Hrt Hb.
    assert ((0 <? Chunker.size b)%N = true) as Hpos by (apply N.ltb_lt; lia).
    assert ((10000 <? Chunker.size b + 0)%N = true) as Hbig by (apply N.ltb_lt; lia).
    destruct rt as [mr sr]. cbn in Hrt. subst mr.
    destruct b as [n]. cbn [Chunker.size] in *.
    lazy -[N.ltb] in Hpos, Hbig |- *. rewrite Hpos.
    lazy -[N.ltb]. rewrite Hbig. lazy -[N.ltb]. rewrite Hbig. reflexivity.
Qed.

Lemma tick_resubmits_witness :
  exists h',
    step {| mediaRecorder := RecorderWorks; speechRecognition := RecognitionWorks |}
      (Tick 0)
      (setAudioChunksRef [{| Chunker.size := 20000 |}]
         (setRecorders [{| recording := true; transcribeInterval := Some 0%N |}] initial))
    = Some h'
    /\ audioChunksRef h' = [{| Chunker.size := 20000 |}].
Proof.
  destruct (tick_resubmits
              {| mediaRecorder := RecorderWorks; speechRecognition := RecognitionWorks |}
              (setAudioChunksRef [{| Chunker.size := 20000 |}]
                 (setRecorders [{| recording := true; transcribeInterval := Some 0%N |}]
                    initial))
              0 true 0%N)
    as [(h' & Hstep & _ & Hacc & _) _];
    [reflexivity | reflexivity | reflexivity |].
  exists h'. split; [exact Hstep | exact Hacc].
Defined.

(** ** The hook: how [startRecording] ends *)

(** X19: the turn in which a [startRecording] call ends resets
    [isConnecting] and has exactly one of two outcomes: one message is
    passed to [onError] (the denial or the exhaustion) and [isRecording] is
    left as it was, or nothing is passed to [onError], [isRecording] is set
    and [provider] names a provider. *)
Theorem startRecording_outcome (rt : runtime) (e : event) (h h' : hook) :
  step rt e h = Some h' ->
  running h <> NotRunning -> running h' = NotRunning ->
  isConnecting h' = false
  /\ ((isRecording h' = isRecording h
       /\ exists m, errors h' = (errors h ++ [m])%list /\ (m = denied \/ m = exhausted))
      \/ (isRecording h' = true /\ is_Some (provider h') /\ errors h' = errors h)).
Proof.
  intros Hstep Hrun Hend.
  assert (forall stream h0,
            errors h0 = errors h -> isRecording h0 = isRecording h ->
            isConnecting (streamingFailed rt stream h0) = false
            /\ ((isRecording (streamingFailed rt stream h0) = isRecording h
                 /\ exists m, errors (streamingFailed rt stream h0) = (errors h ++ [m])%list
                              /\ (m = denied \/ m = exhausted))
                \/ (isRecording (streamingFailed rt stream h0) = true
                    /\ is_Some (provider (streamingFailed rt stream h0))
                    /\ errors (streamingFailed rt stream h0) = errors h))) as Hfail.
  { intros stream h0 He Hi.
    destruct (streamingFailed_fields rt stream h0) as (_ & _ & _ & _ & Hcases).
    split.
    { unfold streamingFailed, startAssemblyAI, startWebSpeech.
      destruct (mediaRecorder rt), (speechRecognition rt); reflexivity. }
    destruct Hcases as
      [(_ & _ & _ & _ & Hc & Hp & Hr)
      | [(_ & _ & _ & _ & _ & Hc & Hp & Hr) | (_ & _ & _ & _ & _ & Hc & _ & Hr & _)]].
    - right. unfold errors in *. rewrite Hc, Hp. eauto.
    - right. unfold errors in *. rewrite Hc, Hp. eauto.
    - left. split; [congruence|]. exists exhausted. split; [|by right].
      unfold errors in *. rewrite Hc, errors_snoc. congruence. }
  destruct e; invert_step Hstep; try done.
  all: try (by apply Hfail).
  all: try (by destruct (stopRecording_keeps h) as (? & _); congruence).
  - split; [reflexivity|]. left. split; [reflexivity|].
    exists denied. split; [|by left]. unfold errors. cbn. by rewrite errors_snoc.
  - destruct (resolve_cases rt k true
                (setProvider (Some deepgram)
                   (setSocketRef (Some k)
                      (setSockets (<[k:={| state := OPEN; timeout := None |}]> (sockets h)) h))))
      as [[Heq Hn] | (stream & Hr & Heq)]; rewrite Heq in *.
    + cbn in Hend. congruence.
    + split; [reflexivity|]. right. cbn. eauto.
  - destruct (resolve_cases rt k false
                (setSockets (<[k:={| state := CLOSED; timeout := None |}]> (sockets h)) h))
      as [[Heq Hn] | (stream & Hr & Heq)]; rewrite Heq in *.
    + cbn in Hend. congruence.
    + by apply Hfail.
  - destruct (resolve_cases rt k false
                (setSockets (<[k:={| state := CLOSED; timeout := None |}]> (sockets h)) h))
      as [[Heq Hn] | (stream & Hr & Heq)]; rewrite Heq in *.
    + cbn in Hend. congruence.
    + by apply Hfail.
  - destruct (resolve_cases rt k false
                (setSockets (<[k:={| state := CLOSED; timeout := None |}]> (sockets h)) h))
      as [[Heq Hn] | (stream & Hr & Heq)]; rewrite Heq in *.
    + cbn in Hend. congruence.
    + by apply Hfail.
Qed.

Lemma startRecording_outcome_witness :
  isConnecting (streamingFailed
                  {| mediaRecorder := RecorderWorks; speechRecognition := RecognitionAbsent |}
                  0 granted) = false.
Proof.
  apply (startRecording_outcome
           {| mediaRecorder := RecorderWorks; speechRecognition := RecognitionAbsent |}
           (ConfigArrives ConfigNotOk) granted); [reflexivity | discriminate | reflexivity].
Defined.

(** *** [isConnecting] *)




(** *** Sockets and their timers *)

Lemma streamingFailed_now (rt : runtime) (stream : nat) (h : hook) :
  now (streamingFailed rt stream h) = now h.
Proof.
  unfold streamingFailed, startAssemblyAI, startWebSpeech.
  destruct (mediaRecorder rt), (speechRecognition rt); reflexivity.
Qed.

Lemma stopRecording_now (h : hook) : now (stopRecording h) = now h.
Proof.
  unfold stopRecording. repeat case_match; cbn -[insert alter lookup] in *; done.
Qed.

Lemma timed_frame (h h2 : hook) :
  sockets h2 = sockets h -> now h2 = now h -> socketRef h2 = socketRef h ->
  (forall stream k, running h2 = AwaitHandshake stream k ->
     exists stream', running h = AwaitHandshake stream' k) ->
  Resources.timed h -> Resources.timed h2.
Proof.
  intros Hs Hn Hr Hrun (T1 & T2 & T3). unfold Resources.timed.
  rewrite Hs, Hn, Hr. split_and!; [done | | done].
  intros stream k Hk. destruct (Hrun _ _ Hk) as [stream' Hk']. by eapply T2.
Qed.

Lemma resolve_timed (rt : runtime) (k : nat) (v : bool) (h : hook) :
  (forall j s, sockets h !! j = Some s -> Resources.sound (now h) s) ->
  (forall stream j, running h = AwaitHandshake stream j -> j <> k ->
     exists s, sockets h !! j = Some s /\ state s = CONNECTING) ->
  (forall j, socketRef h = Some j ->
     exists s, sockets h !! j = Some s /\ state s <> CONNECTING) ->
  Resources.timed (resolve rt k v h).
Proof.
  intros T1 T2 T3.
  destruct (resolve_cases rt k v h) as [[-> Hn] | (stream & Hr & ->)].
  - split_and!; [done | | done].
    intros stream j Hj. apply (T2 stream j Hj). intros ->. by eapply Hn.
  - destruct v.
    + split_and!; [done | discriminate | done].
    + destruct (streamingFailed_fields rt stream h) as (Hrun & _ & Href & Hs & _).
      unfold Resources.timed.
      rewrite Hrun, Href, Hs, streamingFailed_now. split_and!; [done | discriminate | done].
Qed.

(** A socket that leaves the connecting state, its timer disarmed. *)
Lemma settle_timed (rt : runtime) (k : nat) (v : bool) (st : readyState) (h h0 : hook) :
  Resources.timed h -> st <> CONNECTING -> k < length (sockets h) ->
  sockets h0 = <[k := {| state := st; timeout := None |}]> (sockets h) ->
  now h0 = now h -> running h0 = running h ->
  socketRef h0 = socketRef h \/ socketRef h0 = Some k ->
  Resources.timed (resolve rt k v h0).
Proof.
  intros (T1 & T2 & T3) Hst Hk Hs Hn Hr Href.
  apply resolve_timed; rewrite ?Hs, ?Hn, ?Hr.
  - intros j s [(-> & <- & _) | [_ Hj]]%list_lookup_insert_Some; [done | by eapply T1].
  - intros stream j Hj Hne. rewrite list_lookup_insert_ne by done. by eapply T2.
  - intros j Hj. destruct (decide (k = j)) as [<-|Hne].
    + rewrite list_lookup_insert_eq by done. eauto.
    + rewrite list_lookup_insert_ne by done. apply T3.
      destruct Href as [Href | Href]; congruence.
Qed.

Lemma step_timed (rt : runtime) (e : event) (h h' : hook) :
  Resources.timed h -> step rt e h = Some h' -> Resources.timed h'.
Proof.
  intros Ht Hstep. pose proof Ht as (T1 & T2 & T3).
  destruct e; invert_step Hstep.
  all: try (apply (timed_frame h);
            [reflexivity.. | cbn; intros ??; try discriminate; eauto | done]).
  - (* stopRecording *)
    destruct (stopRecording_keeps h) as (Hrun & _).
    unfold Resources.timed.
    rewrite stopRecording_now, stopRecording_sockets, Hrun.
    rewrite stopRecording_socketRef.
    destruct (socketRef h) as [j|] eqn:Hj; [|split_and!; [done | done | discriminate]].
    destruct (T3 j eq_refl) as (s0 & Hs0 & Hc0).
    split_and!; [| |discriminate].
    + intros k s Hk. destruct (decide (j = k)) as [<-|Hne].
      * rewrite list_lookup_alter_eq, Hs0 in Hk. cbn in Hk. simplify_eq.
        pose proof (T1 _ _ Hs0) as Hsound. unfold Resources.sound in *. cbn.
        destruct (timeout s0); [by destruct Hsound | done].
      * rewrite list_lookup_alter_ne in Hk by done. by eapply T1.
    + intros stream k Hk. destruct (T2 _ _ Hk) as (s & Hs & Hc).
      rewrite list_lookup_alter_ne; [eauto|]. intros <-. congruence.
  - apply (timed_frame h); [apply streamingFailed_fields | apply streamingFailed_now
                           | apply streamingFailed_fields | | done].
    intros stream' k. destruct (streamingFailed_fields rt stream h) as (-> & _). discriminate.
  - apply (timed_frame h); [apply streamingFailed_fields | apply streamingFailed_now
                           | apply streamingFailed_fields | | done].
    intros stream' k. destruct (streamingFailed_fields rt stream h) as (-> & _). discriminate.
  - apply (timed_frame h); [apply streamingFailed_fields | apply streamingFailed_now
                           | apply streamingFailed_fields | | done].
    intros stream' k. destruct (streamingFailed_fields rt stream h) as (-> & _). discriminate.
  - (* a socket is created *)
    unfold Resources.timed. cbn. split_and!.
    + intros k s [Hk | [_ Hk]]%lookup_app_Some; [by eapply T1|].
      destruct (k - length (sockets h)); [|done]. cbn in Hk. simplify_eq.
      unfold Resources.sound. cbn. split_and!; [done | lia | lia].
    + intros stream' k [= <- <-]. rewrite lookup_app_r by lia.
      rewrite Nat.sub_diag. cbn. eauto.
    + intros k Hk. destruct (T3 k Hk) as (s & Hs & Hc).
      exists s. split; [|done]. by apply lookup_app_l_Some.
  - apply (settle_timed rt k true OPEN h);
      [done | done | by eapply lookup_lt_Some | reflexivity.. | by right].
  - apply (settle_timed rt k false CLOSED h);
      [done | done | by eapply lookup_lt_Some | reflexivity.. | by left].
  - apply (settle_timed rt k false CLOSED h);
      [done | done | by eapply lookup_lt_Some | reflexivity.. | by left].
  - (* the peer closes an open socket *)
    match goal with
    | Hk : sockets h !! k = Some {| state := OPEN; timeout := ?t |} |- _ =>
        rename Hk into Hopen; pose proof (T1 _ _ Hopen) as Hsound;
        unfold Resources.sound in Hsound; cbn in Hsound;
        destruct t as [due|]; [by destruct Hsound|]
    end.
    unfold Resources.timed. cbn -[insert]. split_and!.
    + intros j s [(-> & <- & _) | [_ Hj]]%list_lookup_insert_Some; [done | by eapply T1].
    + intros stream j Hj. destruct (T2 _ _ Hj) as (s & Hs & Hc).
      rewrite list_lookup_insert_ne; [eauto|]. intros <-. rewrite Hopen in Hs. by simplify_eq.
    + intros j Hj. destruct (decide (k = j)) as [<-|Hne].
      * rewrite list_lookup_insert_eq by (by eapply lookup_lt_Some). eauto.
      * rewrite list_lookup_insert_ne by done. by apply T3.
  - apply (settle_timed rt k false CLOSED h);
      [done | done | by eapply lookup_lt_Some | reflexivity.. | by left].
  - (* time passes *)
    unfold Resources.timed. cbn. split_and!; [|done..].
    intros k s Hk. pose proof (T1 _ _ Hk) as Hsound.
    unfold Resources.sound in *. destruct (timeout s) as [due|] eqn:Hdue; [|done].
    destruct Hsound as (Hc & H1 & H2). split_and!; [done | | lia].
    rewrite forallb_forall in Heqb. apply N.leb_le, Heqb.
    unfold deadlines. apply in_app_iff. left.
    apply list_elem_of_In, list_elem_of_omap. eauto using list_elem_of_lookup_2.
Qed.

Lemma steps_timed (rt : runtime) (es : list event) (h h' : hook) :
  Resources.timed h -> steps rt es h = Some h' -> Resources.timed h'.
Proof.
  revert h. induction es as [|e es IH]; intros h Ht Hsteps.
  - cbn in Hsteps. by simplify_eq.
  - cbn in Hsteps. destruct (step rt e h) as [h1|] eqn:Hstep; [|discriminate].
    apply (IH h1); [|done]. by apply (step_timed rt e h).
Qed.

(** X21: in every state the hook can reach, over any number of sessions, a
    socket is connecting exactly while its timer is armed, and that timer
    is due now or later, at most 5000 ms from now: no handshake is awaited
    longer. A [startRecording] call that waits for a handshake waits for a
    socket that is still connecting, and the socket held by [socketRef] has
    left the connecting state, its timer disarmed. *)
Theorem handshake_bounded (rt : runtime) (es : list event) (h : hook) :
  steps rt es initial = Some h ->
  (forall k s, sockets h !! k = Some s ->
     (state s = CONNECTING <-> is_Some (timeout s))
     /\ (forall due, timeout s = Some due -> (now h <= due <= now h + 5000)%N))
  /\ (forall stream k, running h = AwaitHandshake stream k ->
        exists due, sockets h !! k = Some {| state := CONNECTING; timeout := Some due |})
  /\ (forall k, socketRef h = Some k ->
        exists st, sockets h !! k = Some {| state := st; timeout := None |}
                   /\ st <> CONNECTING).
Proof.
  intros Hsteps.
  assert (Resources.timed h) as (T1 & T2 & T3).
  { apply (steps_timed rt es initial); [|done].
    split_and!; [intros k s Hk; by destruct k | discriminate..]. }
  assert (forall k s, sockets h !! k = Some s ->
            (state s = CONNECTING <-> is_Some (timeout s))
            /\ (forall due, timeout s = Some due -> (now h <= due <= now h + 5000)%N))
    as Hsock.
  { intros k s Hk. pose proof (T1 _ _ Hk) as Hsound. unfold Resources.sound in Hsound.
    destruct (timeout s) as [due|].
    - destruct Hsound as (Hc & H1 & H2). split; [split; eauto|].
      intros due' [= <-]. lia.
    - split; [|discriminate]. split; [done | by intros [? ?]]. }
  split_and!; [done | |].
  - intros stream k Hk. destruct (T2 _ _ Hk) as ([st [due|]] & Hs & Hc).
    + cbn in Hc. subst st. eauto.
    + destruct (Hsock _ _ Hs) as [[Hiff _] _]. by destruct (Hiff Hc).
  - intros k Hk. destruct (T3 _ Hk) as ([st [due|]] & Hs & Hc).
    + destruct (Hsock _ _ Hs) as [[_ Hiff] _]. cbn in *. by destruct Hc, Hiff.
    + cbn in Hc. eauto.
Qed.

Lemma handshake_bounded_witness :
  exists due, sockets handshaking !! 0
              = Some {| state := CONNECTING; timeout := Some due |}.
Proof.
  destruct (handshake_bounded
              {| mediaRecorder := RecorderWorks; speechRecognition := RecognitionWorks |}
              connecting handshaking eq_refl) as (_ & Hrun & _).
  apply (Hrun 0 0). reflexivity.
Defined.

(** *** One provider at a time *)

Lemma count_le_length {A : Type} (f : A -> bool) (l : list A) :
  Resources.count f l <= length l.
Proof. induction l as [|x l IH]; cbn; [lia | destruct (f x); lia]. Qed.

Lemma count_app {A : Type} (f : A -> bool) (l1 l2 : list A) :
  Resources.count f (l1 ++ l2) = Resources.count f l1 + Resources.count f l2.
Proof. induction l1 as [|x l1 IH]; cbn; [done | rewrite IH; lia]. Qed.

Lemma count_insert_le {A : Type} (f : A -> bool) (l : list A) (k : nat) (y : A) :
  (forall x, l !! k = Some x -> f y = true -> f x = true) ->
  Resources.count f (<[k := y]> l) <= Resources.count f l.
Proof.
  revert k. induction l as [|x l IH]; intros k Hk; [done|].
  destruct k as [|k]; cbn.
  - specialize (Hk x eq_refl). destruct (f y), (f x); lia.
  - apply Nat.add_le_mono_l, IH, Hk.
Qed.

Lemma count_alter_le {A : Type} (f : A -> bool) (g : A -> A) (l : list A) (k : nat) :
  (forall x, f (g x) = true -> f x = true) ->
  Resources.count f (alter g k l) <= Resources.count f l.
Proof.
  intros Hg. revert k. induction l as [|x l IH]; intros k; [done|].
  destruct k as [|k]; cbn.
  - specialize (Hg x). destruct (f (g x)), (f x); lia.
  - apply Nat.add_le_mono_l, IH.
Qed.

Lemma stopRecording_resources (h : hook) :
  length (sockets (stopRecording h)) = length (sockets h)
  /\ length (recorders (stopRecording h)) = length (recorders h)
  /\ Resources.live (stopRecording h) <= Resources.live h.
Proof.
  unfold Resources.live.
  destruct (stopRecording_keeps h) as (_ & _ & _ & -> & _).
  rewrite stopRecording_sockets, stopRecording_recorders.
  assert (Resources.count Resources.connected
            match socketRef h with
            | Some j => alter (fun s => {| state := CLOSED; timeout := timeout s |}) j (sockets h)
            | None => sockets h
            end <= Resources.count Resources.connected (sockets h)) as Hs.
  { destruct (socketRef h); [|done]. by apply count_alter_le. }
  assert (Resources.count recording
            match mediaRecorderRef h with
            | Some r =>
                match recorders h !! r with
                | Some {| recording := true |} =>
                    <[r := {| recording := false; transcribeInterval := None |}]> (recorders h)
                | _ => recorders h
                end
            | None => recorders h
            end <= Resources.count recording (recorders h)) as Hr.
  { destruct (mediaRecorderRef h) as [r|]; [|done].
    destruct (recorders h !! r) as [[[] iv]|]; [|done..]. by apply count_insert_le. }
  split_and!; [| |lia].
  - destruct (socketRef h); [apply length_alter | done].
  - destruct (mediaRecorderRef h) as [r|]; [|done].
    destruct (recorders h !! r) as [[[] iv]|]; [apply length_insert | done..].
Qed.

Lemma streamingFailed_resources (rt : runtime) (stream : nat) (h : hook) :
  let h' := streamingFailed rt stream h in
  length (recorders h') <= S (length (recorders h))
  /\ Resources.count recording (recorders h') + recognitions h'
     <= S (Resources.count recording (recorders h) + recognitions h).
Proof.
  unfold streamingFailed, startAssemblyAI, startWebSpeech.
  destruct (mediaRecorder rt), (speechRecognition rt); cbn;
    rewrite ?length_app, ?count_app; cbn; lia.
Qed.

Lemma streamingFailed_exclusive (rt : runtime) (stream : nat) (h : hook) :
  length (sockets h) <= 1 -> Resources.count Resources.connected (sockets h) = 0 ->
  recorders h = [] -> recognitions h = 0 ->
  Resources.exclusive (streamingFailed rt stream h).
Proof.
  intros Hlen Hc Hr Hg.
  destruct (streamingFailed_fields rt stream h) as (Hrun & _ & _ & Hs & _).
  destruct (streamingFailed_resources rt stream h) as [Hl Hcount].
  unfold Resources.exclusive, Resources.live. rewrite Hrun, Hs, Hc.
  rewrite Hr, Hg in *. cbn in *. split_and!; lia.
Qed.

Lemma resolve_exclusive (rt : runtime) (k : nat) (v : bool) (h : hook) (x : socket) :
  sockets h = [x] -> recorders h = [] -> recognitions h = 0 ->
  (v = false -> Resources.connected x = false) ->
  (exists stream, running h = AwaitHandshake stream 0) \/ running h = NotRunning ->
  Resources.exclusive (resolve rt k v h).
Proof.
  intros Hs Hr Hg Hv Hrun.
  assert (Resources.exclusive h) as Hex.
  { unfold Resources.exclusive, Resources.live. rewrite Hs, Hr, Hg.
    destruct Hrun as [[stream ->] | ->]; cbn; [done|].
    destruct (Resources.connected x); split_and!; lia. }
  destruct (resolve_cases rt k v h) as [[-> _] | (stream & Hk & ->)]; [done|].
  destruct v.
  - unfold Resources.exclusive, Resources.live. cbn. rewrite Hs, Hr, Hg. cbn.
    destruct (Resources.connected x); split_and!; lia.
  - apply streamingFailed_exclusive; rewrite ?Hs; cbn; [lia | | done | done].
    by rewrite Hv.
Qed.

Lemma exclusive_shrink (h h2 : hook) :
  running h2 = running h ->
  length (sockets h2) = length (sockets h) ->
  length (recorders h2) = length (recorders h) ->
  recognitions h2 = recognitions h ->
  Resources.live h2 <= Resources.live h ->
  Resources.exclusive h -> Resources.exclusive h2.
Proof.
  intros Hr Hs Hc Hg Hl. unfold Resources.exclusive. rewrite Hr, Hg.
  destruct (running h).
  - intros (? & ? & ?). split_and!; lia.
  - intros (H1 & H2 & H3). rewrite H1 in Hs. rewrite H2 in Hc.
    split_and!; [by apply nil_length_inv | by apply nil_length_inv | done].
  - intros (H1 & H2 & H3). rewrite H1 in Hs. rewrite H2 in Hc.
    split_and!; [by apply nil_length_inv | by apply nil_length_inv | done].
  - intros (H1 & H2 & H3 & H4). rewrite H3 in Hc.
    split_and!; [done | lia | by apply nil_length_inv | done].
Qed.

Lemma resolve_idle (rt : runtime) (k : nat) (v : bool) (h : hook) :
  running h = NotRunning -> resolve rt k v h = h.
Proof. intros Hr. unfold resolve. by rewrite Hr. Qed.

(** The socket of the session changes its state. *)
Lemma settle_exclusive (rt : runtime) (k : nat) (v : bool) (x : socket) (h h0 : hook) :
  Resources.exclusive h -> is_Some (sockets h !! k) ->
  sockets h0 = <[k := x]> (sockets h) ->
  recorders h0 = recorders h -> recognitions h0 = recognitions h ->
  running h0 = running h ->
  (forall y, sockets h !! k = Some y ->
     Resources.connected x = true -> Resources.connected y = true) ->
  (v = false -> Resources.connected x = false) ->
  Resources.exclusive (resolve rt k v h0).
Proof.
  intros Hex [y Hy] Hs Hr Hg Hrun Hconn Hv.
  unfold Resources.exclusive in Hex.
  destruct (running h) eqn:Hrunning.
  - rewrite resolve_idle by congruence.
    apply (exclusive_shrink h); [congruence | by rewrite Hs, length_insert | congruence..| |].
    + unfold Resources.live. rewrite Hs, Hr, Hg.
      pose proof (count_insert_le Resources.connected (sockets h) k x Hconn). lia.
    + unfold Resources.exclusive. by rewrite Hrunning.
  - destruct Hex as (Hnil & _). by rewrite Hnil in Hy.
  - destruct Hex as (Hnil & _). by rewrite Hnil in Hy.
  - destruct Hex as (-> & Hlen & Hrec & Hrecog).
    destruct (sockets h) as [|y0 [|]] eqn:Hsock; try done.
    destruct k as [|k]; [|done].
    apply (resolve_exclusive rt 0 v h0 x);
      [by rewrite Hs | congruence | congruence | done | left; eauto].
Qed.

Lemma step_exclusive (rt : runtime) (e : event) (h h' : hook) :
  Resources.exclusive h -> e <> StartRecording -> step rt e h = Some h' ->
  Resources.exclusive h'.
Proof.
  intros Hex Hne Hstep.
  destruct e; try done; invert_step Hstep.
  all: try (apply (exclusive_shrink h); [reflexivity.. | done | done]).
  - (* stopRecording *)
    destruct (stopRecording_resources h) as (Hs & Hr & Hl).
    destruct (stopRecording_keeps h) as (Hrun & _ & _ & Hg & _).
    by apply (exclusive_shrink h).
  - unfold Resources.exclusive in *. rewrite Heqr in Hex. exact Hex.
  - unfold Resources.exclusive, Resources.live in *. rewrite Heqr in Hex.
    destruct Hex as (Hs & Hr & Hg). cbn. rewrite Hs, Hr, Hg. cbn. split_and!; lia.
  - unfold Resources.exclusive in Hex. rewrite Heqr in Hex. destruct Hex as (Hs & Hr & Hg).
    apply streamingFailed_exclusive; rewrite ?Hs; cbn; done || lia.
  - unfold Resources.exclusive in Hex. rewrite Heqr in Hex. destruct Hex as (Hs & Hr & Hg).
    apply streamingFailed_exclusive; rewrite ?Hs; cbn; done || lia.
  - unfold Resources.exclusive in Hex. rewrite Heqr in Hex. destruct Hex as (Hs & Hr & Hg).
    apply streamingFailed_exclusive; rewrite ?Hs; cbn; done || lia.
  - unfold Resources.exclusive in *. rewrite Heqr in Hex. destruct Hex as (Hs & Hr & Hg).
    cbn. rewrite Hs. done.
  - apply (settle_exclusive rt k true {| state := OPEN; timeout := None |} h);
      [done | eauto | reflexivity.. | | done].
    intros y Hy _. by simplify_eq.
  - apply (settle_exclusive rt k false {| state := CLOSED; timeout := None |} h);
      [done | eauto | reflexivity.. | done | done].
  - apply (settle_exclusive rt k false {| state := CLOSED; timeout := None |} h);
      [done | eauto | reflexivity.. | done | done].
  - apply (exclusive_shrink h); [reflexivity | apply length_insert | reflexivity.. | | done].
    unfold Resources.live. cbn -[insert].
    match goal with
    | |- Resources.count _ (<[k := ?x]> _) + _ + _ <= _ =>
        pose proof (count_insert_le Resources.connected (sockets h) k x) as Hle
    end.
    cbn in Hle. specialize (Hle ltac:(done)). lia.
  - apply (settle_exclusive rt k false {| state := CLOSED; timeout := None |} h);
      [done | eauto | reflexivity.. | done | done].
  - apply (exclusive_shrink h); [reflexivity | reflexivity | apply length_insert
                               | reflexivity | | done].
    unfold Resources.live. cbn -[insert].
    match goal with
    | |- _ + Resources.count _ (<[r := ?x]> _) + _ <= _ =>
        pose proof (count_insert_le recording (recorders h) r x) as Hle
    end.
    cbn in Hle. specialize (Hle ltac:(intros y Hy; by simplify_eq)). lia.
  - apply (exclusive_shrink h); [reflexivity | reflexivity | apply length_insert
                               | reflexivity | | done].
    unfold Resources.live. cbn -[insert].
    match goal with
    | |- _ + Resources.count _ (<[r := ?x]> _) + _ <= _ =>
        pose proof (count_insert_le recording (recorders h) r x) as Hle
    end.
    cbn in Hle. specialize (Hle ltac:(intros y Hy; by simplify_eq)). lia.
Qed.

Lemma steps_exclusive (rt : runtime) (es : list event) (h h' : hook) :
  Resources.exclusive h -> StartRecording ∉ es -> steps rt es h = Some h' ->
  Resources.exclusive h'.
Proof.
  revert h. induction es as [|e es IH]; intros h Hex Hno Hsteps.
  - cbn in Hsteps. by simplify_eq.
  - cbn in Hsteps. destruct (step rt e h) as [h1|] eqn:Hstep; [|discriminate].
    apply not_elem_of_cons in Hno as [Hne Hno].
    apply (IH h1); [|done..]. by apply (step_exclusive rt e h).
Qed.

(** X22: in a session (one [startRecording] on a fresh hook, followed by any
    turns) at most one provider resource is live at any time, counting the
    sockets that are connecting or open, the recorders that are recording
    and the recognisers started; the session makes at most one socket and
    at most one recorder. *)
Theorem one_provider_at_a_time (rt : runtime) (es : list event) (h : hook) :
  StartRecording ∉ es ->
  steps rt (StartRecording :: es) initial = Some h ->
  Resources.live h <= 1
  /\ length (sockets h) <= 1 /\ length (recorders h) <= 1.
Proof.
  intros Hno Hsteps. cbn in Hsteps.
  assert (Resources.exclusive h) as Hex.
  { apply (steps_exclusive rt es (setRunning AwaitMicrophone (setIsConnecting true initial)));
      [|done..]. cbn. done. }
  unfold Resources.exclusive, Resources.live in *.
  destruct (running h).
  - by destruct Hex as (? & ? & ?).
  - destruct Hex as (-> & -> & ->). cbn. lia.
  - destruct Hex as (-> & -> & ->). cbn. lia.
  - destruct Hex as (_ & Hlen & -> & ->).
    pose proof (count_le_length Resources.connected (sockets h)). cbn. lia.
Qed.

Lemma one_provider_at_a_time_witness :
  Resources.live
    (streamingFailed
       {| mediaRecorder := RecorderWorks; speechRecognition := RecognitionWorks |} 0
       (setSockets [{| state := CLOSED; timeout := None |}] (setNow 5000%N handshaking)))
  <= 1.
Proof.
  apply (one_provider_at_a_time
           {| mediaRecorder := RecorderWorks; speechRecognition := RecognitionWorks |}
           [MicrophoneGranted; ConfigArrives ConfigReady; Elapse 5000; Timeout 0]).
  - intros Hin. repeat (apply elem_of_cons in Hin as [Hin|Hin]; [discriminate|]).
    by apply elem_of_nil in Hin.
  - reflexivity.
Defined.

(** *** What [stopRecording] releases *)

Lemma exclusive_lengths (h : hook) :
  Resources.exclusive h ->
  length (sockets h) <= 1 /\ length (recorders h) <= 1
  /\ (running h <> NotRunning -> recorders h = []).
Proof.
  unfold Resources.exclusive. destruct (running h).
  - intros (? & ? & _). done.
  - intros (-> & -> & _). cbn. split_and!; auto.
  - intros (-> & -> & _). cbn. split_and!; auto.
  - intros (_ & -> & -> & _). cbn. split_and!; auto.
Qed.

Lemma referenced_frame (h h2 : hook) :
  sockets h2 = sockets h -> socketRef h2 = socketRef h ->
  recorders h2 = recorders h -> mediaRecorderRef h2 = mediaRecorderRef h ->
  Resources.referenced h -> Resources.referenced h2.
Proof. unfold Resources.referenced. by intros -> -> -> ->. Qed.

Lemma streamingFailed_referenced (rt : runtime) (stream : nat) (h : hook) :
  recorders h = [] ->
  (forall k s, sockets h !! k = Some s -> state s = OPEN -> socketRef h = Some k) ->
  Resources.referenced (streamingFailed rt stream h).
Proof.
  intros Hr Hs.
  destruct (streamingFailed_fields rt stream h) as (_ & _ & Href & Hsock & _).
  split; [by rewrite Hsock, Href|].
  unfold streamingFailed, startAssemblyAI, startWebSpeech.
  destruct (mediaRecorder rt), (speechRecognition rt); cbn; rewrite Hr; cbn;
    intros [|r] x Hx Hon; by simplify_eq.
Qed.

Lemma resolve_referenced (rt : runtime) (k : nat) (v : bool) (h : hook) :
  (running h <> NotRunning -> recorders h = []) ->
  Resources.referenced h -> Resources.referenced (resolve rt k v h).
Proof.
  intros Hrun Hrefd.
  destruct (resolve_cases rt k v h) as [[-> _] | (stream & Hr & ->)]; [done|].
  destruct v; [exact Hrefd|].
  apply streamingFailed_referenced; [apply Hrun; congruence | apply Hrefd].
Qed.

Lemma stopRecording_referenced (h : hook) :
  Resources.referenced h ->
  (forall k s, sockets (stopRecording h) !! k = Some s -> state s <> OPEN)
  /\ (forall r x, recorders (stopRecording h) !! r = Some x -> recording x = false).
Proof.
  intros [Hs Hr]. rewrite stopRecording_sockets, stopRecording_recorders. split.
  - intros k s Hk Hopen.
    destruct (socketRef h) as [j|] eqn:Hj.
    + destruct (decide (j = k)) as [<-|Hne].
      * rewrite list_lookup_alter_eq in Hk.
        destruct (sockets h !! j); cbn in Hk; by simplify_eq.
      * rewrite list_lookup_alter_ne in Hk by done.
        specialize (Hs _ _ Hk Hopen). congruence.
    + specialize (Hs _ _ Hk Hopen). congruence.
  - intros r x Hx. destruct (recording x) eqn:Hon; [exfalso|done].
    destruct (mediaRecorderRef h) as [r0|] eqn:Hr0.
    + destruct (recorders h !! r0) as [[[] iv]|] eqn:Hl.
      * destruct (decide (r0 = r)) as [<-|Hne].
        -- rewrite list_lookup_insert_eq in Hx by (by eapply lookup_lt_Some).
           by simplify_eq.
        -- rewrite list_lookup_insert_ne in Hx by done.
           specialize (Hr _ _ Hx Hon). congruence.
      * specialize (Hr _ _ Hx Hon). destruct x. cbn in Hon. by simplify_eq.
      * specialize (Hr _ _ Hx Hon). by simplify_eq.
    + specialize (Hr _ _ Hx Hon). congruence.
Qed.

Lemma step_referenced (rt : runtime) (e : event) (h h' : hook) :
  Resources.exclusive h -> Resources.referenced h ->
  e <> StartRecording -> step rt e h = Some h' -> Resources.referenced h'.
Proof.
  intros Hex Hrefd Hne Hstep.
  destruct (exclusive_lengths h Hex) as (Hls & Hlr & Hnil).
  pose proof Hrefd as [Hs Hr].
  destruct e; try done; invert_step Hstep.
  all: try (apply (referenced_frame h); [reflexivity.. | done]).
  - (* stopRecording *)
    destruct (stopRecording_referenced h Hrefd) as [Hs' Hr']. split.
    + intros k s Hk Hopen. by destruct (Hs' _ _ Hk).
    + intros r x Hx Hon. rewrite (Hr' _ _ Hx) in Hon. discriminate.
  - apply streamingFailed_referenced; [apply Hnil; congruence | done].
  - apply streamingFailed_referenced; [apply Hnil; congruence | done].
  - apply streamingFailed_referenced; [apply Hnil; congruence | done].
  - (* a socket is created *)
    split; [|exact Hr]. cbn.
    intros k s [Hk | [_ Hk]]%lookup_app_Some Hopen; [by eapply Hs|].
    destruct (k - length (sockets h)); [|done]. cbn in Hk. by simplify_eq.
  - (* the socket opens *)
    apply resolve_referenced; [exact Hnil|]. split; [|exact Hr]. cbn -[insert].
    intros j s Hj Hopen.
    assert (k < length (sockets h)) as Hk by (by eapply lookup_lt_Some).
    pose proof (lookup_lt_Some _ _ _ Hj) as Hj'. rewrite length_insert in Hj'.
    f_equal. lia.
  - apply resolve_referenced; [exact Hnil|]. split; [|exact Hr]. cbn -[insert].
    intros j s [(-> & <- & _) | [_ Hj]]%list_lookup_insert_Some Hopen; [done | by eapply Hs].
  - apply resolve_referenced; [exact Hnil|]. split; [|exact Hr]. cbn -[insert].
    intros j s [(-> & <- & _) | [_ Hj]]%list_lookup_insert_Some Hopen; [done | by eapply Hs].
  - split; [|exact Hr]. cbn -[insert].
    intros j s [(-> & <- & _) | [_ Hj]]%list_lookup_insert_Some Hopen; [done | by eapply Hs].
  - apply resolve_referenced; [exact Hnil|]. split; [|exact Hr]. cbn -[insert].
    intros j s [(-> & <- & _) | [_ Hj]]%list_lookup_insert_Some Hopen; [done | by eapply Hs].
  - split; [exact Hs|]. cbn -[insert].
    intros j x [(-> & <- & _) | [_ Hj]]%list_lookup_insert_Some Hon; [|by eapply Hr].
    cbn in Hon. subst. by eapply Hr.
  - split; [exact Hs|]. cbn -[insert].
    intros j x [(-> & <- & _) | [_ Hj]]%list_lookup_insert_Some Hon; [|by eapply Hr].
    cbn in Hon. subst. by eapply Hr.
Qed.

Lemma steps_referenced (rt : runtime) (es : list event) (h h' : hook) :
  Resources.exclusive h -> Resources.referenced h ->
  StartRecording ∉ es -> steps rt es h = Some h' -> Resources.referenced h'.
Proof.
  revert h. induction es as [|e es IH]; intros h Hex Hrefd Hno Hsteps.
  - cbn in Hsteps. by simplify_eq.
  - cbn in Hsteps. destruct (step rt e h) as [h1|] eqn:Hstep; [|discriminate].
    apply not_elem_of_cons in Hno as [Hne Hno].
    apply (IH h1); [by apply (step_exclusive rt e h) | by apply (step_referenced rt e h)
                   | done..].
Qed.

(** X23: in a session, once [stopRecording] has run no socket is open and no
    recorder is recording: what can outlive the call is only a socket whose
    handshake is still in flight and a recogniser that was started. *)
Theorem stopRecording_releases (rt : runtime) (es : list event) (h : hook) :
  StartRecording ∉ es ->
  steps rt (StartRecording :: es) initial = Some h ->
  (forall k s, sockets (stopRecording h) !! k = Some s -> state s <> OPEN)
  /\ (forall r x, recorders (stopRecording h) !! r = Some x -> recording x = false)
  /\ Resources.live (stopRecording h)
     = Resources.count Resources.inFlight (sockets (stopRecording h)) + recognitions h.
Proof.
  intros Hno Hsteps. cbn in Hsteps.
  assert (Resources.referenced h) as Hrefd.
  { apply (steps_referenced rt es (setRunning AwaitMicrophone (setIsConnecting true initial)));
      [done | | done..].
    split; intros [|?] ? ?; done. }
  destruct (stopRecording_referenced h Hrefd) as [Hs Hr]. split_and!; [done..|].
  unfold Resources.live.
  destruct (stopRecording_keeps h) as (_ & _ & _ & -> & _).
  assert (forall l : list recorder,
            (forall r x, l !! r = Some x -> recording x = false) ->
            Resources.count recording l = 0) as Hzero.
  { induction l as [|x l IH]; intros Hl; [done|]. cbn.
    rewrite (Hl 0 x eq_refl). apply IH. intros r y. apply (Hl (S r)). }
  assert (forall l : list socket,
            (forall k s, l !! k = Some s -> state s <> OPEN) ->
            Resources.count Resources.connected l
            = Resources.count Resources.inFlight l) as Heq.
  { induction l as [|s l IH]; intros Hl; [done|]. cbn.
    rewrite (IH (fun k => Hl (S k))). f_equal.
    specialize (Hl 0 s eq_refl). unfold Resources.connected, Resources.inFlight.
    destruct (state s); [reflexivity | done | reflexivity]. }
  rewrite (Hzero _ Hr), (Heq _ Hs). lia.
Qed.

Lemma stopRecording_releases_witness :
  Resources.live (stopRecording Resources.streaming)
  = Resources.count Resources.inFlight (sockets (stopRecording Resources.streaming))
    + recognitions Resources.streaming.
Proof.
  apply (stopRecording_releases
           {| mediaRecorder := RecorderWorks; speechRecognition := RecognitionWorks |}
           [MicrophoneGranted; ConfigArrives ConfigReady; SocketOpen 0]).
  - intros Hin. repeat (apply elem_of_cons in Hin as [Hin|Hin]; [discriminate|]).
    by apply elem_of_nil in Hin.
  - reflexivity.
Defined.
